(** * Shipment milestone and stop-order analysis

    A shallow embedding of [app.streamlit.py]: the column check, the
    per-shipment loop (grouping, ordering by arrival time, milestone status,
    out-of-order flag, intended and exact order, missed stops, origin and
    carrier) and the properties the specification states about them.

    Conventions.
    - A Python [str] is a [string] holding its UTF-8 bytes, so the arrow
      of the order strings and the dash placeholder are three bytes each.
    - A timestamp is an integer ([Z]); a missing one ([NaT]) is [None].
    - A data frame of one shipment is the list of its rows, in index order. *)

From Stdlib Require Import ZArith List String Ascii Bool Arith Lia.
From Stdlib Require Import Permutation Sorted Orders Mergesort.
From Stdlib Require Import DecimalString.
From Stdlib Require DecimalNat DecimalFacts.
Import ListNotations.

Local Open Scope string_scope.

(** ** Python string operations used by the program *)

Module Text.

(** The value of a byte. *)
Definition byte (c : ascii) : nat := nat_of_ascii c.

(** [str.lower] and [str.upper].  The program compares their results with
    "origin", "destination" and "ORIGIN" and with the required column
    names, so the model changes the case of the ASCII letters and of the
    one other character whose other case is made of letters of those
    constants: the dotless i (bytes 196 177), which [str.upper] turns
    into "I".  Every other byte is left as it is; on such characters the
    result may differ from Python's, the comparisons do not. *)
Definition is_upper (c : ascii) : bool :=
  (65 <=? byte c)%nat && (byte c <=? 90)%nat.

Definition is_lower (c : ascii) : bool :=
  (97 <=? byte c)%nat && (byte c <=? 122)%nat.

Definition lower_char (c : ascii) : ascii :=
  if is_upper c then ascii_of_nat (byte c + 32) else c.

Definition upper_char (c : ascii) : ascii :=
  if is_lower c then ascii_of_nat (byte c - 32) else c.

Definition is_dotless_i (c1 c2 : ascii) : bool :=
  (byte c1 =? 196)%nat && (byte c2 =? 177)%nat.

Fixpoint lower (s : string) : string :=
  match s with
  | EmptyString => EmptyString
  | String c rest => String (lower_char c) (lower rest)
  end.

Fixpoint upper (s : string) : string :=
  match s with
  | EmptyString => EmptyString
  | String c rest =>
      match rest with
      | String c' rest' =>
          if is_dotless_i c c' then String "I"%char (upper rest')
          else String (upper_char c) (upper rest)
      | EmptyString => String (upper_char c) EmptyString
      end
  end.

(** The characters [str.strip] removes, as their UTF-8 bytes.  One byte:
    tab to carriage return, the four separators, space.  Two bytes:
    U+0085 and U+00A0.  Three bytes: U+1680, U+2000 to U+200A, U+2028,
    U+2029, U+202F, U+205F and U+3000. *)
Definition is_space (c : ascii) : bool :=
  ((9 <=? byte c)%nat && (byte c <=? 13)%nat)
  || ((28 <=? byte c)%nat && (byte c <=? 32)%nat).

Definition is_space2 (c1 c2 : ascii) : bool :=
  (byte c1 =? 194)%nat && ((byte c2 =? 133)%nat || (byte c2 =? 160)%nat).

Definition is_space3 (c1 c2 c3 : ascii) : bool :=
  ((byte c1 =? 225)%nat && (byte c2 =? 154)%nat && (byte c3 =? 128)%nat)
  || ((byte c1 =? 226)%nat && (byte c2 =? 128)%nat
      && (((128 <=? byte c3)%nat && (byte c3 <=? 138)%nat)
          || (byte c3 =? 168)%nat || (byte c3 =? 169)%nat
          || (byte c3 =? 175)%nat))
  || ((byte c1 =? 226)%nat && (byte c2 =? 129)%nat && (byte c3 =? 159)%nat)
  || ((byte c1 =? 227)%nat && (byte c2 =? 128)%nat && (byte c3 =? 128)%nat).

Fixpoint lstrip (s : string) : string :=
  match s with
  | EmptyString => EmptyString
  | String c1 r1 =>
      if is_space c1 then lstrip r1
      else
        match r1 with
        | String c2 r2 =>
            if is_space2 c1 c2 then lstrip r2
            else
              match r2 with
              | String c3 r3 => if is_space3 c1 c2 c3 then lstrip r3 else s
              | EmptyString => s
              end
        | EmptyString => s
        end
  end.

(** Whether the string holds white space only. *)
Fixpoint all_space (s : string) : bool :=
  match s with
  | EmptyString => true
  | String c1 r1 =>
      if is_space c1 then all_space r1
      else
        match r1 with
        | String c2 r2 =>
            if is_space2 c1 c2 then all_space r2
            else
              match r2 with
              | String c3 r3 => is_space3 c1 c2 c3 && all_space r3
              | EmptyString => false
              end
        | EmptyString => false
        end
  end.

(** The string is cut where only white space follows. *)
Fixpoint rstrip (s : string) : string :=
  match s with
  | EmptyString => EmptyString
  | String c rest => if all_space s then EmptyString else String c (rstrip rest)
  end.

Definition strip (s : string) : string := rstrip (lstrip s).

(** [sep.join(parts)] *)
Fixpoint join (sep : string) (parts : list string) : string :=
  match parts with
  | [] => EmptyString
  | [p] => p
  | p :: rest => p ++ sep ++ join sep rest
  end.

(** [str(n)] for a natural number: its decimal digits. *)
Definition str_nat (n : nat) : string :=
  NilZero.string_of_uint (Nat.to_uint n).

End Text.

(** ** Rows, tables and the data-frame operations *)

Module Frame.

(** One input record, with the seven required columns.  The field names
    are the normalised column names. *)
Record Row : Type := mkRow {
  shipment_id : string;
  stop_type : string;
  stop_name : string;
  stop_country : string;
  stop_actual_arrival_time : option Z;
  stop_actual_departure_time : option Z;
  current_carrier : string
}.

(** The uploaded sheet: its header cells as read, and its data rows. *)
Record Table : Type := mkTable {
  columns : list string;
  rows : list Row
}.

(** [Series.isna] on one cell. *)
Definition isna {A : Type} (cell : option A) : bool :=
  match cell with
  | None => true
  | Some _ => false
  end.

Definition notna {A : Type} (cell : option A) : bool := negb (isna cell).

(** [Series.dropna().tolist()] *)
Fixpoint dropna {A : Type} (cells : list (option A)) : list A :=
  match cells with
  | [] => []
  | Some v :: rest => v :: dropna rest
  | None :: rest => dropna rest
  end.

(** Positional selection ([take], and numpy's indexing by an index
    array).  An index outside the list selects nothing here; the indexers
    built below never hold one (lemma [indexer_in_range]). *)
Definition take {A : Type} (indexer : list nat) (l : list A) : list A :=
  flat_map (fun i => match nth_error l i with
                     | Some x => [x]
                     | None => []
                     end) indexer.

(** The positions, counted from [start], of the cells that satisfy [p]
    ([np.nonzero(mask)[0]] and [idx[~mask]]). *)
Fixpoint positions {A : Type} (p : A -> bool) (start : nat) (l : list A)
  : list nat :=
  match l with
  | [] => []
  | x :: rest =>
      if p x then start :: positions p (S start) rest
      else positions p (S start) rest
  end.

(** The sorting routine behind [sort_values]: numpy's [argsort], called
    with the default [kind] (quicksort).  Its contract is all the program
    can rely on: the result lists every position once and reads the keys
    in ascending order.  Nothing is promised about equal keys. *)
Record ArgSort : Type := mkArgSort {
  argsort : list Z -> list nat;
  argsort_perm : forall keys,
    Permutation (argsort keys) (seq 0 (List.length keys));
  argsort_sorted : forall keys,
    Sorted Z.le (take (argsort keys) keys)
}.

(** [group.sort_values(by="stop actual arrival time", na_position="last")
    .reset_index(drop=True)], as pandas computes it for one sort column:
    the non-null keys are arg-sorted, the positions of the null keys are
    appended in index order, and the rows are taken in that order. *)
Definition indexer (A : ArgSort) (items : list (option Z)) : list nat :=
  let non_nans := dropna items in
  let non_nan_idx := positions notna 0 items in
  let nan_idx := positions isna 0 items in
  (take (argsort A non_nans) non_nan_idx ++ nan_idx)%list.

Definition sort_values (A : ArgSort) (group : list Row) : list Row :=
  take (indexer A (map stop_actual_arrival_time group)) group.

(** [df.columns = [col.strip().lower() for col in df.columns]] *)
Definition normalize (cols : list string) : list string :=
  map (fun col => Text.lower (Text.strip col)) cols.

Definition required_cols : list string :=
  [ "shipment id";
    "stop type";
    "stop name";
    "stop country";
    "stop actual arrival time";
    "stop actual departure time";
    "current carrier" ].

(** [col in df.columns] *)
Definition mem (col : string) (cols : list string) : bool :=
  existsb (String.eqb col) cols.

(** [[col for col in required_cols if col not in df.columns]] *)
Definition missing_cols (cols : list string) : list string :=
  filter (fun col => negb (mem col cols)) required_cols.

(** The group keys of [df.groupby("shipment id")]: the distinct
    identifiers, in ascending order (the default [sort=True]). *)
Fixpoint insert_key (k : string) (keys : list string) : list string :=
  match keys with
  | [] => [k]
  | k' :: rest =>
      match String.compare k k' with
      | Lt => k :: keys
      | Eq => keys
      | Gt => k' :: insert_key k rest
      end
  end.

Definition group_keys (ids : list string) : list string :=
  fold_right insert_key [] ids.

(** [df.groupby("shipment id")]: one pair of key and sub-frame per
    distinct identifier; a sub-frame keeps its rows in the table's order. *)
Definition groupby (df : list Row) : list (string * list Row) :=
  map (fun k => (k, filter (fun r => shipment_id r =? k) df))
      (group_keys (map shipment_id df)).

End Frame.

(** ** The analysis of the program *)

Module Analysis.
Import Frame.

(** What an indexing operation of the loop body can raise. *)
Inductive exn : Type :=
| IndexError.

(** A computation that returns a value or raises. *)
Inductive raises (A : Type) : Type :=
| Return (a : A)
| Raise (e : exn).

Arguments Return {A} a.
Arguments Raise {A} e.

Definition bind {A B : Type} (m : raises A) (k : A -> raises B) : raises B :=
  match m with
  | Return a => k a
  | Raise e => Raise e
  end.

Notation "x <- m ;; k" := (bind m (fun x => k))
  (at level 61, m at next level, right associativity).

(** [series.iloc[0]] *)
Definition iloc0 {A : Type} (series : list A) : raises A :=
  match series with
  | [] => Raise IndexError
  | x :: _ => Return x
  end.

(** One row of the result table (the dictionary appended to [results]). *)
Record OutputRecord : Type := mkOutput {
  Shipment_ID : string;
  Origin_Location : string;
  Number_of_Stops : nat;
  Carrier : string;
  Milestone_Status : string;
  Out_of_Order : string;
  Intended_Order : string;
  Exact_Order : string;
  Missed_Stops : string
}.

Definition arrival_missing (r : Row) : bool := isna (stop_actual_arrival_time r).
Definition departure_missing (r : Row) : bool := isna (stop_actual_departure_time r).

(** [all_missing = arrival_missing & departure_missing], row by row. *)
Definition all_missing (r : Row) : bool :=
  arrival_missing r && departure_missing r.

Definition milestone_status (group : list Row) : string :=
  if forallb all_missing group then "No milestones received"
  else if existsb all_missing group then "Completed with missing milestones"
  else "Completed with all milestones".

(** [group["stop actual arrival time"].dropna().tolist()] *)
Definition times (group : list Row) : list Z :=
  dropna (map stop_actual_arrival_time group).

(** [any(times[i] > times[i + 1] for i in range(len(times) - 1))].
    [range] of a negative number is empty, as is [seq 0 (0 - 1)]; the
    indices read are all inside the list, so the default is never used. *)
Definition out_of_order (ts : list Z) : bool :=
  existsb (fun i => (nth i ts 0 >? nth (i + 1) ts 0)%Z)
          (seq 0 (List.length ts - 1)).

Definition out_of_order_status (group : list Row) : string :=
  if milestone_status group =? "No milestones received" then "Not Applicable"
  else if out_of_order (times group) then "Yes" else "No".

Definition arrow : string := " → ".
Definition dash : string := "—".

(** The formatted label [f"Stop{k}"]. *)
Definition stop_label (k : nat) : string := "Stop" ++ Text.str_nat k.

Definition intended_order (group : list Row) : string :=
  let num_stops := List.length group in
  let others := if (2 <? num_stops)%nat then (num_stops - 2)%nat else 0%nat in
  if (0 <? others)%nat then
    "Origin → "
    ++ Text.join arrow (map (fun i => stop_label (i + 1)) (seq 0 others))
    ++ " → Destination"
  else "Origin → Destination".

(** One turn of the labelling loop; the state is [actual_labels] and
    [stop_counter]. *)
Definition label_step (st : list string * nat) (s : string)
  : list string * nat :=
  let '(actual_labels, stop_counter) := st in
  if Text.lower s =? "origin" then
    ((actual_labels ++ ["Origin"])%list, stop_counter)
  else if Text.lower s =? "destination" then
    ((actual_labels ++ ["Destination"])%list, stop_counter)
  else
    ((actual_labels ++ [stop_label stop_counter])%list, S stop_counter).

Definition actual_labels (stop_types : list string) : list string :=
  fst (fold_left label_step stop_types ([], 1%nat)).

(** [group.dropna(subset=["stop actual arrival time"])] *)
Definition visited_group (group : list Row) : list Row :=
  filter (fun r => notna (stop_actual_arrival_time r)) group.

Definition exact_order (group : list Row) : string :=
  let stop_types := map stop_type (visited_group group) in
  match actual_labels stop_types with
  | [] => dash
  | labels => Text.join arrow labels
  end.

Definition missed (group : list Row) : list string :=
  map stop_name
      (filter (fun r => arrival_missing r || departure_missing r) group).

Definition missed_stops (group : list Row) : string :=
  match missed group with
  | [] => dash
  | names => Text.join ", " names
  end.

(** [group[group["stop type"].str.upper() == "ORIGIN"].head(1)] *)
Definition origin_row (group : list Row) : list Row :=
  firstn 1 (filter (fun r => Text.upper (stop_type r) =? "ORIGIN") group).

Definition origin_location (group : list Row) : string :=
  match map stop_name (origin_row group) with
  | [] => dash
  | name :: _ => name
  end.

(** The body of the loop over the groups: the sub-frame is sorted, and
    one record is built from it. *)
Definition analyse_group (A : ArgSort) (shipment_id : string)
  (sub_frame : list Row) : raises OutputRecord :=
  let group := sort_values A sub_frame in
  carrier <- iloc0 (map current_carrier group) ;;
  Return {| Shipment_ID := shipment_id;
            Origin_Location := origin_location group;
            Number_of_Stops := List.length group;
            Carrier := carrier;
            Milestone_Status := milestone_status group;
            Out_of_Order := out_of_order_status group;
            Intended_Order := intended_order group;
            Exact_Order := exact_order group;
            Missed_Stops := missed_stops group |}.

(** The loop: the records are appended in the order of the groups, and
    the first exception ends it. *)
Fixpoint for_each_group (A : ArgSort) (groups : list (string * list Row))
  : raises (list OutputRecord) :=
  match groups with
  | [] => Return []
  | (shipment_id, sub_frame) :: rest =>
      record <- analyse_group A shipment_id sub_frame ;;
      records <- for_each_group A rest ;;
      Return (record :: records)
  end.

Definition results (A : ArgSort) (df : list Row) : raises (list OutputRecord) :=
  for_each_group A (groupby df).

(** What the page shows for an uploaded table: the error message naming
    the missing columns, or the per-shipment records; a raised exception
    ends the run. *)
Inductive Outcome : Type :=
| StError (message : string)
| Results (records : list OutputRecord)
| Uncaught (e : exn).

Definition missing_message (missing : list string) : string :=
  "❌ Missing columns in uploaded file: " ++ Text.join ", " missing.

Definition run (A : ArgSort) (df : Table) : Outcome :=
  match missing_cols (normalize (columns df)) with
  | (_ :: _) as missing => StError (missing_message missing)
  | [] =>
      match results A (rows df) with
      | Return records => Results records
      | Raise e => Uncaught e
      end
  end.

End Analysis.

(** ** Facts about the data-frame operations *)

Module FrameFacts.
Import Frame.
Local Open Scope list_scope.

Lemma take_app {A : Type} p q (l : list A) : take (p ++ q) l = take p l ++ take q l.
Proof. unfold take. apply flat_map_app. Qed.

Lemma take_cons {A : Type} i p (l : list A) :
  take (i :: p) l
  = match nth_error l i with Some x => [x] | None => [] end ++ take p l.
Proof. reflexivity. Qed.

Lemma take_Permutation {A : Type} p q (l : list A) :
  Permutation p q -> Permutation (take p l) (take q l).
Proof. intros H. unfold take. now apply Permutation_flat_map. Qed.

Lemma take_seq_shift {A : Type} (pre l : list A) :
  take (seq (List.length pre) (List.length l)) (pre ++ l) = l.
Proof.
  revert pre. induction l as [|x l IH]; intros pre; [reflexivity|].
  cbn [List.length seq]. rewrite take_cons.
  rewrite nth_error_app2, Nat.sub_diag by lia. cbn [nth_error app].
  f_equal.
  specialize (IH (pre ++ [x])).
  rewrite <- app_assoc, length_app in IH. cbn in IH.
  now rewrite Nat.add_1_r in IH.
Qed.

Lemma take_seq {A : Type} (l : list A) : take (seq 0 (List.length l)) l = l.
Proof. exact (take_seq_shift [] l). Qed.

Lemma take_incl {A : Type} p (l : list A) : incl (take p l) l.
Proof.
  intros x Hx. unfold take in Hx. apply in_flat_map in Hx.
  destruct Hx as (i & _ & Hi).
  destruct (nth_error l i) as [y|] eqn:E; [|contradiction].
  destruct Hi as [->|[]]. eapply nth_error_In; eauto.
Qed.

(** Reading position [i] of a selection whose indices are all in range. *)
Lemma nth_error_take {A : Type} q (l : list A) :
  Forall (fun j => j < List.length l)%nat q ->
  forall i, nth_error (take q l) i
            = match nth_error q i with
              | Some j => nth_error l j
              | None => None
              end.
Proof.
  induction 1 as [|j q Hj _ IH]; intros i.
  - now destruct i.
  - rewrite take_cons.
    destruct (nth_error l j) as [x|] eqn:E.
    + destruct i; cbn; [now rewrite E | apply IH].
    + apply nth_error_None in E. lia.
Qed.

Lemma take_take {A : Type} p q (l : list A) :
  Forall (fun j => j < List.length l)%nat q ->
  take (take p q) l = take p (take q l).
Proof.
  intros Hq. induction p as [|i p IH]; [reflexivity|].
  rewrite !take_cons, take_app, IH, (nth_error_take q l Hq i). f_equal.
  destruct (nth_error q i) as [j|]; [|reflexivity].
  cbn. now rewrite app_nil_r.
Qed.


Lemma take_map {A B : Type} (f : A -> B) p (l : list A) :
  take p (map f l) = map f (take p l).
Proof.
  induction p as [|i p IH]; [reflexivity|].
  rewrite !take_cons, map_app, IH, nth_error_map.
  now destruct (nth_error l i).
Qed.

Lemma positions_bounds {A : Type} (p : A -> bool) (l : list A) start :
  Forall (fun i => start <= i < start + List.length l)%nat (positions p start l).
Proof.
  revert start. induction l as [|x l IH]; intros start; cbn; [constructor|].
  assert (H : Forall (fun i => start <= i < start + S (List.length l))%nat
                     (positions p (S start) l)).
  { eapply Forall_impl; [|apply IH]. cbn. intros; lia. }
  destruct (p x); [constructor; [lia|]|]; exact H.
Qed.

(** Selecting the positions of the cells that satisfy [p] is filtering. *)
Lemma take_positions {A B : Type} (f : A -> B) (p : B -> bool) pre (l : list A) :
  take (positions p (List.length pre) (map f l)) (pre ++ l)
  = filter (fun x => p (f x)) l.
Proof.
  revert pre. induction l as [|x l IH]; intros pre; [reflexivity|].
  specialize (IH (pre ++ [x])).
  rewrite <- app_assoc, length_app, Nat.add_1_r in IH. cbn [app] in IH.
  cbn [map positions filter].
  destruct (p (f x)); [|exact IH].
  rewrite take_cons, nth_error_app2, Nat.sub_diag by lia. cbn [nth_error app].
  now f_equal.
Qed.

Lemma dropna_app {A : Type} (xs ys : list (option A)) :
  dropna (xs ++ ys) = dropna xs ++ dropna ys.
Proof.
  induction xs as [|[v|] xs IH]; cbn; [reflexivity| now f_equal | exact IH].
Qed.

Lemma dropna_length_positions {A : Type} (items : list (option A)) start :
  List.length (positions notna start items) = List.length (dropna items).
Proof.
  revert start. induction items as [|[v|] items IH]; intros start; cbn;
    [reflexivity | now f_equal | apply IH].
Qed.

Definition null_arrival (r : Row) : bool := isna (stop_actual_arrival_time r).
Definition has_arrival (r : Row) : bool := notna (stop_actual_arrival_time r).

(** The arrival time of a row that has one. *)
Definition arrival_of (r : Row) : Z :=
  match stop_actual_arrival_time r with
  | Some t => t
  | None => 0%Z
  end.

Lemma dropna_all_present (group : list Row) :
  Forall (fun r => has_arrival r = true) group ->
  dropna (map stop_actual_arrival_time group) = map arrival_of group.
Proof.
  induction 1 as [|r group Hr _ IH]; [reflexivity|].
  unfold has_arrival, notna, arrival_of in *. cbn.
  destruct (stop_actual_arrival_time r); [now f_equal | discriminate].
Qed.

Lemma dropna_all_null (group : list Row) :
  Forall (fun r => null_arrival r = true) group ->
  dropna (map stop_actual_arrival_time group) = [].
Proof.
  induction 1 as [|r group Hr _ IH]; [reflexivity|].
  unfold null_arrival in Hr. cbn.
  destruct (stop_actual_arrival_time r); [discriminate | exact IH].
Qed.

Lemma dropna_filter_present (group : list Row) :
  dropna (map stop_actual_arrival_time (filter has_arrival group))
  = dropna (map stop_actual_arrival_time group).
Proof.
  induction group as [|r group IH]; [reflexivity|].
  cbn [filter map dropna]. unfold has_arrival at 1. unfold notna.
  destruct (stop_actual_arrival_time r) eqn:E; cbn [isna negb map dropna].
  - rewrite E. now f_equal.
  - exact IH.
Qed.

Lemma filter_Forall {A : Type} (p : A -> bool) (l : list A) :
  Forall (fun x => p x = true) (filter p l).
Proof. apply Forall_forall. intros x Hx. now apply filter_In in Hx. Qed.

(** The sorted group is the rows with an arrival time, in the order the
    arg-sort gives, followed by the rows without one, in index order. *)
Lemma sort_values_split (A : ArgSort) (group : list Row) :
  sort_values A group
  = take (argsort A (dropna (map stop_actual_arrival_time group)))
         (filter has_arrival group)
    ++ filter null_arrival group.
Proof.
  unfold sort_values, indexer. rewrite take_app. f_equal.
  - rewrite take_take.
    + f_equal. exact (take_positions stop_actual_arrival_time notna [] group).
    + eapply Forall_impl; [|apply positions_bounds].
      cbn. intros i Hi. rewrite length_map in Hi. lia.
  - exact (take_positions stop_actual_arrival_time isna [] group).
Qed.

(** Every index of the indexer is a position of the group. *)
Lemma indexer_in_range (A : ArgSort) (items : list (option Z)) :
  Forall (fun i => i < List.length items)%nat (indexer A items).
Proof.
  unfold indexer. apply Forall_app. split.
  - apply Forall_forall. intros i Hi. apply take_incl in Hi.
    pose proof (positions_bounds notna items 0) as H.
    rewrite Forall_forall in H. apply H in Hi. lia.
  - eapply Forall_impl; [|apply positions_bounds]. cbn. intros; lia.
Qed.

Lemma sort_values_front_perm (A : ArgSort) (rows : list Row) :
  Permutation (take (argsort A (dropna (map stop_actual_arrival_time rows)))
                    (filter has_arrival rows))
              (filter has_arrival rows).
Proof.
  rewrite <- (take_seq (filter has_arrival rows)) at 2.
  apply take_Permutation.
  rewrite <- dropna_filter_present,
    (dropna_all_present _ (filter_Forall has_arrival rows)).
  rewrite <- (length_map arrival_of). apply argsort_perm.
Qed.

Lemma sort_values_Permutation (A : ArgSort) (group : list Row) :
  Permutation (sort_values A group) group.
Proof.
  rewrite sort_values_split.
  etransitivity; [apply Permutation_app_tail, sort_values_front_perm|].
  clear A. induction group as [|r group IH]; [constructor|].
  unfold has_arrival, null_arrival, notna in *. cbn.
  destruct (isna (stop_actual_arrival_time r)); cbn.
  - symmetry. apply Permutation_cons_app. now symmetry.
  - now constructor.
Qed.

Lemma sort_values_length (A : ArgSort) (group : list Row) :
  List.length (sort_values A group) = List.length group.
Proof. apply Permutation_length, sort_values_Permutation. Qed.

(** The arrival times read off the sorted group are the sorted keys. *)
Lemma sort_values_times (A : ArgSort) (group : list Row) :
  let keys := dropna (map stop_actual_arrival_time group) in
  dropna (map stop_actual_arrival_time (sort_values A group))
  = take (argsort A keys) keys.
Proof.
  cbn zeta. rewrite sort_values_split, map_app, dropna_app.
  rewrite (dropna_all_null _ (filter_Forall null_arrival group)), app_nil_r.
  rewrite dropna_all_present.
  - rewrite <- take_map. f_equal.
    rewrite <- (dropna_all_present _ (filter_Forall has_arrival group)).
    apply dropna_filter_present.
  - apply Forall_forall. intros r Hr. apply take_incl, filter_In in Hr.
    tauto.
Qed.

End FrameFacts.

(** ** Instances of the sorting contract

    Two sorting routines that meet the contract: an insertion sort, which
    leaves rows of equal arrival time in their input order, and the
    merge sort of the standard library.  Both sort the keys paired with
    their positions, comparing the keys alone. *)

Module KeyOrder <: Orders.TotalLeBool.
Definition t : Type := (Z * nat)%type.
Definition leb (x y : t) : bool := (fst x <=? fst y)%Z.
Theorem leb_total : forall x y, leb x y = true \/ leb y x = true.
Proof. intros x y. unfold leb. rewrite !Z.leb_le. lia. Qed.
End KeyOrder.

Module KeySort := Mergesort.Sort KeyOrder.

Module Sorters.
Import Frame FrameFacts.
Local Open Scope list_scope.

Definition enumerate (keys : list Z) : list (Z * nat) :=
  combine keys (seq 0 (List.length keys)).

Fixpoint insert (x : Z * nat) (sorted : list (Z * nat)) : list (Z * nat) :=
  match sorted with
  | [] => [x]
  | y :: rest =>
      if KeyOrder.leb x y then x :: sorted else y :: insert x rest
  end.

Definition insertion_sort (pairs : list (Z * nat)) : list (Z * nat) :=
  fold_right insert [] pairs.

Definition insertion_argsort (keys : list Z) : list nat :=
  map snd (insertion_sort (enumerate keys)).

Definition merge_argsort (keys : list Z) : list nat :=
  map snd (KeySort.sort (enumerate keys)).

Lemma map_snd_enumerate (keys : list Z) start :
  map snd (combine keys (seq start (List.length keys)))
  = seq start (List.length keys).
Proof.
  revert start. induction keys as [|k keys IH]; intros start; cbn;
    [reflexivity | now f_equal].
Qed.

Lemma enumerate_lookup (pre keys : list Z) :
  Forall (fun ki => nth_error (pre ++ keys) (snd ki) = Some (fst ki))
         (combine keys (seq (List.length pre) (List.length keys))).
Proof.
  revert pre. induction keys as [|k keys IH]; intros pre; cbn; constructor.
  - cbn. now rewrite nth_error_app2, Nat.sub_diag by lia.
  - specialize (IH (pre ++ [k])).
    rewrite <- app_assoc, length_app, Nat.add_1_r in IH. exact IH.
Qed.

Lemma take_lookup (keys : list Z) (pairs : list (Z * nat)) :
  Forall (fun ki => nth_error keys (snd ki) = Some (fst ki)) pairs ->
  take (map snd pairs) keys = map fst pairs.
Proof.
  induction 1 as [|ki pairs Hki _ IH]; [reflexivity|].
  cbn [map]. rewrite take_cons, Hki, IH. reflexivity.
Qed.

Lemma Sorted_map_fst (pairs : list (Z * nat)) :
  Sorted (fun x y => is_true (KeyOrder.leb x y)) pairs ->
  Sorted Z.le (map fst pairs).
Proof.
  induction 1 as [|x l _ IH Hhd]; cbn; constructor; [exact IH|].
  destruct Hhd as [|y l' Hxy]; cbn; constructor.
  unfold KeyOrder.leb in Hxy. now apply Z.leb_le.
Qed.

(** What an arg-sort needs from the sort of the pairs underneath. *)
Lemma argsort_of_sort (sort : list (Z * nat) -> list (Z * nat)) (keys : list Z) :
  Permutation (sort (enumerate keys)) (enumerate keys) ->
  Sorted (fun x y => is_true (KeyOrder.leb x y)) (sort (enumerate keys)) ->
  Permutation (map snd (sort (enumerate keys))) (seq 0 (List.length keys))
  /\ Sorted Z.le (take (map snd (sort (enumerate keys))) keys).
Proof.
  intros Hperm Hsorted. split.
  - etransitivity; [apply Permutation_map, Hperm|].
    unfold enumerate. now rewrite map_snd_enumerate.
  - rewrite take_lookup; [now apply Sorted_map_fst|].
    eapply Permutation_Forall; [symmetry; exact Hperm|].
    exact (enumerate_lookup [] keys).
Qed.

Lemma insert_perm (x : Z * nat) (l : list (Z * nat)) :
  Permutation (insert x l) (x :: l).
Proof.
  induction l as [|y l IH]; cbn; [reflexivity|].
  destruct (KeyOrder.leb x y); [reflexivity|].
  etransitivity; [apply perm_skip, IH | apply perm_swap].
Qed.

Lemma insertion_sort_perm (l : list (Z * nat)) :
  Permutation (insertion_sort l) l.
Proof.
  induction l as [|x l IH]; cbn; [reflexivity|].
  etransitivity; [apply insert_perm | now apply perm_skip].
Qed.

Lemma insert_sorted (x : Z * nat) (l : list (Z * nat)) :
  Sorted (fun a b => is_true (KeyOrder.leb a b)) l ->
  Sorted (fun a b => is_true (KeyOrder.leb a b)) (insert x l).
Proof.
  induction 1 as [|y l Hs IH Hhd]; cbn; [repeat constructor|].
  destruct (KeyOrder.leb x y) eqn:E.
  - repeat constructor; assumption.
  - constructor; [exact IH|].
    assert (Hyx : is_true (KeyOrder.leb y x)).
    { destruct (KeyOrder.leb_total x y) as [H|H]; [congruence | exact H]. }
    destruct Hhd as [|z l' Hyz]; cbn; [now constructor|].
    destruct (KeyOrder.leb x z); now constructor.
Qed.

Lemma insertion_sort_sorted (l : list (Z * nat)) :
  Sorted (fun a b => is_true (KeyOrder.leb a b)) (insertion_sort l).
Proof.
  induction l as [|x l IH]; cbn; [constructor | now apply insert_sorted].
Qed.

Lemma insertion_argsort_perm (keys : list Z) :
  Permutation (insertion_argsort keys) (seq 0 (List.length keys)).
Proof.
  apply (argsort_of_sort insertion_sort);
    [apply insertion_sort_perm | apply insertion_sort_sorted].
Qed.

Lemma insertion_argsort_sorted (keys : list Z) :
  Sorted Z.le (take (insertion_argsort keys) keys).
Proof.
  apply (argsort_of_sort insertion_sort);
    [apply insertion_sort_perm | apply insertion_sort_sorted].
Qed.

Lemma merge_argsort_perm (keys : list Z) :
  Permutation (merge_argsort keys) (seq 0 (List.length keys)).
Proof.
  apply (argsort_of_sort KeySort.sort);
    [symmetry; apply KeySort.Permuted_sort | apply KeySort.Sorted_sort].
Qed.

Lemma merge_argsort_sorted (keys : list Z) :
  Sorted Z.le (take (merge_argsort keys) keys).
Proof.
  apply (argsort_of_sort KeySort.sort);
    [symmetry; apply KeySort.Permuted_sort | apply KeySort.Sorted_sort].
Qed.

Definition insertion : ArgSort :=
  {| argsort := insertion_argsort;
     argsort_perm := insertion_argsort_perm;
     argsort_sorted := insertion_argsort_sorted |}.

Definition merge : ArgSort :=
  {| argsort := merge_argsort;
     argsort_perm := merge_argsort_perm;
     argsort_sorted := merge_argsort_sorted |}.

End Sorters.

(** ** The milestone classifier *)

Module Classifier.
Import Frame FrameFacts Analysis.
Local Open Scope list_scope.

(** A row is fully missing when it has neither timestamp. *)
Definition fully_missing (r : Row) : Prop :=
  stop_actual_arrival_time r = None /\ stop_actual_departure_time r = None.

Lemma all_missing_iff (r : Row) : all_missing r = true <-> fully_missing r.
Proof.
  unfold all_missing, arrival_missing, departure_missing, fully_missing, isna.
  destruct (stop_actual_arrival_time r), (stop_actual_departure_time r);
    cbn; intuition congruence.
Qed.

Lemma forallb_all_missing (group : list Row) :
  forallb all_missing group = true <-> Forall fully_missing group.
Proof.
  rewrite forallb_forall, Forall_forall.
  split; intros H r Hr; apply all_missing_iff; auto.
Qed.

Lemma existsb_all_missing (group : list Row) :
  existsb all_missing group = true <-> Exists fully_missing group.
Proof.
  rewrite existsb_exists, Exists_exists.
  split; intros (r & Hr & H); exists r; split; auto; now apply all_missing_iff.
Qed.

(** Two adjacent entries of a list, the first greater than the second. *)
Definition descent (ts : list Z) : Prop :=
  exists i a b,
    nth_error ts i = Some a /\ nth_error ts (S i) = Some b /\ (a > b)%Z.

Lemma out_of_order_iff (ts : list Z) : out_of_order ts = true <-> descent ts.
Proof.
  unfold out_of_order, descent. rewrite existsb_exists. split.
  - intros (i & Hi & Hgt). apply in_seq in Hi. apply Z.gtb_gt in Hgt.
    exists i, (nth i ts 0%Z), (nth (i + 1) ts 0%Z).
    rewrite Nat.add_1_r in *.
    repeat split; [apply nth_error_nth'; lia | apply nth_error_nth'; lia | exact Hgt].
  - intros (i & a & b & Ha & Hb & Hgt).
    assert (S i < List.length ts)%nat
      by (apply nth_error_Some; congruence).
    exists i. split; [apply in_seq; lia|].
    rewrite Nat.add_1_r, (nth_error_nth _ _ _ Ha), (nth_error_nth _ _ _ Hb).
    now apply Z.gtb_gt.
Qed.

Lemma Sorted_no_descent (ts : list Z) : Sorted Z.le ts -> ~ descent ts.
Proof.
  intros Hs (i & a & b & Ha & Hb & Hgt). revert i Ha Hb.
  induction Hs as [|x ts _ IH Hhd]; intros i Ha Hb; [now destruct i|].
  destruct i as [|i]; cbn in Ha, Hb.
  - destruct Hhd as [|y ts' Hxy]; [discriminate|].
    cbn in Hb. injection Ha as <-. injection Hb as <-. lia.
  - eauto.
Qed.

Lemma no_milestones_iff (group : list Row) :
  milestone_status group = "No milestones received"
  <-> Forall fully_missing group.
Proof.
  unfold milestone_status. rewrite <- forallb_all_missing.
  destruct (forallb all_missing group), (existsb all_missing group);
    split; intros; try discriminate; reflexivity.
Qed.

Lemma not_applicable_iff (group : list Row) :
  out_of_order_status group = "Not Applicable"
  <-> milestone_status group = "No milestones received".
Proof.
  unfold out_of_order_status.
  destruct (String.eqb_spec (milestone_status group) "No milestones received")
    as [E|E]; [tauto|].
  destruct (out_of_order (times group)); split; intros; try discriminate;
    contradiction.
Qed.

(** C1.  The milestone status of a shipment group is "No milestones
    received" exactly when every row lacks both timestamps; it is
    "Completed with missing milestones" exactly when some row, but not
    every row, lacks both; and it is "Completed with all milestones"
    exactly when no row lacks both (and not all rows do). *)
Theorem milestone_status_cases (group : list Row) :
  (milestone_status group = "No milestones received"
   <-> Forall fully_missing group)
  /\ (milestone_status group = "Completed with missing milestones"
      <-> ~ Forall fully_missing group /\ Exists fully_missing group)
  /\ (milestone_status group = "Completed with all milestones"
      <-> ~ Forall fully_missing group /\ ~ Exists fully_missing group).
Proof.
  unfold milestone_status.
  rewrite <- forallb_all_missing, <- existsb_all_missing.
  destruct (forallb all_missing group), (existsb all_missing group);
    repeat split; intros; try discriminate; intuition congruence.
Qed.

(** C2.  The out-of-order flag of a group is "Not Applicable" exactly when
    its milestone status is "No milestones received"; otherwise it is
    "Yes" exactly when two adjacent entries of the group's non-null arrival
    times, read in the group's order, are strictly decreasing, and "No"
    exactly when no two are.  The loop applies it to the sorted group. *)
Theorem out_of_order_status_cases (group : list Row) :
  (out_of_order_status group = "Not Applicable"
   <-> milestone_status group = "No milestones received")
  /\ (out_of_order_status group = "Yes"
      <-> milestone_status group <> "No milestones received"
          /\ descent (times group))
  /\ (out_of_order_status group = "No"
      <-> milestone_status group <> "No milestones received"
          /\ ~ descent (times group)).
Proof.
  unfold out_of_order_status.
  rewrite <- out_of_order_iff.
  destruct (String.eqb_spec (milestone_status group) "No milestones received")
    as [E|E].
  - repeat split; intros; try discriminate; intuition congruence.
  - destruct (out_of_order (times group));
      repeat split; intros; try discriminate; intuition congruence.
Qed.

Lemma sorted_times (A : ArgSort) (rows : list Row) :
  Sorted Z.le (times (sort_values A rows)).
Proof. unfold times. rewrite sort_values_times. apply argsort_sorted. Qed.

(** C3.  On the group as the loop sorts it, the out-of-order flag is
    never "Yes": the arrival times it reads are ascending, so the flag is
    "Not Applicable" or "No". *)
Theorem sorted_group_never_out_of_order (A : ArgSort) (rows : list Row) :
  out_of_order_status (sort_values A rows) <> "Yes"
  /\ (out_of_order_status (sort_values A rows) = "Not Applicable"
      \/ out_of_order_status (sort_values A rows) = "No").
Proof.
  pose proof (Sorted_no_descent _ (sorted_times A rows)) as Hnd.
  rewrite <- out_of_order_iff in Hnd.
  unfold out_of_order_status.
  destruct (milestone_status (sort_values A rows) =? "No milestones received")%string.
  - split; [discriminate | now left].
  - destruct (out_of_order (times (sort_values A rows)));
      [congruence | split; [discriminate | now right]].
Qed.

End Classifier.

(** ** The ordering of a group *)

Module Grouper.
Import Frame FrameFacts Analysis.
Local Open Scope list_scope.

(** Ascending by arrival time, for rows that have one. *)
Definition arrival_le (r1 r2 : Row) : Prop := (arrival_of r1 <= arrival_of r2)%Z.

Lemma Sorted_map_arrival (group : list Row) :
  Sorted Z.le (map arrival_of group) -> StronglySorted arrival_le group.
Proof.
  intros H. apply Sorted_StronglySorted.
  - intros x y z. unfold arrival_le. lia.
  - induction group as [|r group IH]; [constructor|].
    cbn in H. inversion H as [|? ? Hs Hhd]; subst.
    constructor; [auto|].
    destruct group; cbn in *; constructor.
    now inversion Hhd.
Qed.

Lemma front_sorted (A : ArgSort) (rows : list Row) :
  StronglySorted arrival_le
    (take (argsort A (dropna (map stop_actual_arrival_time rows)))
          (filter has_arrival rows)).
Proof.
  apply Sorted_map_arrival.
  rewrite <- take_map.
  rewrite <- (dropna_all_present _ (filter_Forall has_arrival rows)).
  rewrite dropna_filter_present. apply argsort_sorted.
Qed.

(** C4.  The sorted group is a front part followed by a back part: the
    front holds exactly the rows with an arrival time (each as often as
    in the input), in ascending order of arrival time; the back holds the
    rows without an arrival time, in their input order. *)
Theorem sort_values_nulls_last (A : ArgSort) (rows : list Row) :
  exists front,
    sort_values A rows = front ++ filter null_arrival rows
    /\ Permutation front (filter has_arrival rows)
    /\ Forall (fun r => stop_actual_arrival_time r <> None) front
    /\ StronglySorted arrival_le front
    /\ Forall (fun r => stop_actual_arrival_time r = None)
              (filter null_arrival rows).
Proof.
  eexists. split; [apply sort_values_split|].
  split; [apply sort_values_front_perm|].
  split; [|split; [apply front_sorted|]].
  - eapply Permutation_Forall;
      [symmetry; apply sort_values_front_perm|].
    eapply Forall_impl; [|apply (filter_Forall has_arrival)].
    intros r. unfold has_arrival, notna.
    destruct (stop_actual_arrival_time r); cbn; congruence.
  - eapply Forall_impl; [|apply (filter_Forall null_arrival)].
    intros r. unfold null_arrival.
    destruct (stop_actual_arrival_time r); cbn; congruence.
Qed.

End Grouper.

(** ** The order reconstructor *)

Module Reconstructor.
Import Frame FrameFacts Analysis.
Local Open Scope list_scope.

(** A stop type that is neither "origin" nor "destination" once lowered. *)
Definition intermediate (s : string) : bool :=
  negb (Text.lower s =? "origin")%string
  && negb (Text.lower s =? "destination")%string.

(** The number of intermediate stops among the given stop types. *)
Definition count_intermediate (stop_types : list string) : nat :=
  List.length (filter intermediate stop_types).

(** The label of a stop of type [s] when [k] is the next stop number. *)
Definition label_of (k : nat) (s : string) : string :=
  if (Text.lower s =? "origin")%string then "Origin"
  else if (Text.lower s =? "destination")%string then "Destination"
  else stop_label k.

(** The labels of a sequence of stops, numbering from [k]. *)
Fixpoint labels_from (k : nat) (stop_types : list string) : list string :=
  match stop_types with
  | [] => []
  | s :: rest =>
      label_of k s :: labels_from (if intermediate s then S k else k) rest
  end.

(** The intended order as the specification words it, from the count. *)
Definition intended_template (n : nat) : string :=
  if (2 <? n)%nat then
    ("Origin → " ++ Text.join " → " (map stop_label (seq 1 (n - 2)))
     ++ " → Destination")%string
  else "Origin → Destination".

Lemma fold_label_step (stop_types : list string) (acc : list string) (k : nat) :
  fold_left label_step stop_types (acc, k)
  = (acc ++ labels_from k stop_types, (k + count_intermediate stop_types)%nat).
Proof.
  revert acc k. induction stop_types as [|s rest IH]; intros acc k.
  - cbn. now rewrite app_nil_r, Nat.add_0_r.
  - cbn [fold_left labels_from]. unfold label_step at 2.
    unfold count_intermediate, label_of, intermediate. cbn [filter].
    destruct (Text.lower s =? "origin")%string;
      [|destruct (Text.lower s =? "destination")%string];
      rewrite IH, <- app_assoc; cbn [negb andb List.length app];
      unfold count_intermediate, intermediate; f_equal; lia.
Qed.

Lemma actual_labels_eq (stop_types : list string) :
  actual_labels stop_types = labels_from 1 stop_types.
Proof. unfold actual_labels. now rewrite fold_label_step. Qed.

Lemma labels_from_length (stop_types : list string) (k : nat) :
  List.length (labels_from k stop_types) = List.length stop_types.
Proof.
  revert k. induction stop_types as [|s rest IH]; intros k; cbn;
    [reflexivity | now rewrite IH].
Qed.

Lemma nth_error_labels_from (stop_types : list string) (k i : nat) (s : string) :
  nth_error stop_types i = Some s ->
  nth_error (labels_from k stop_types) i
  = Some (label_of (k + count_intermediate (firstn i stop_types)) s).
Proof.
  revert k i. induction stop_types as [|s0 rest IH]; intros k i H.
  - now destruct i.
  - destruct i as [|i]; cbn in H.
    + injection H as ->. cbn. now rewrite Nat.add_0_r.
    + cbn [labels_from nth_error firstn]. rewrite (IH _ _ H).
      unfold count_intermediate. cbn [filter].
      destruct (intermediate s0); cbn [List.length]; do 2 f_equal; lia.
Qed.

Lemma filter_all {A : Type} (p : A -> bool) (l : list A) :
  Forall (fun x => p x = true) l -> filter p l = l.
Proof.
  induction 1 as [|x l Hx _ IH]; [reflexivity|]. cbn. now rewrite Hx, IH.
Qed.

Lemma filter_none {A : Type} (p : A -> bool) (l : list A) :
  Forall (fun x => p x = false) l -> filter p l = [].
Proof.
  induction 1 as [|x l Hx _ IH]; [reflexivity|]. cbn. now rewrite Hx.
Qed.

(** The visited rows of the sorted group: the rows with an arrival time,
    in the order the arg-sort of their times gives. *)
Lemma visited_sorted (A : ArgSort) (rows : list Row) :
  visited_group (sort_values A rows)
  = take (argsort A (dropna (map stop_actual_arrival_time rows)))
         (filter has_arrival rows).
Proof.
  unfold visited_group.
  change (fun r => notna (stop_actual_arrival_time r)) with has_arrival.
  rewrite sort_values_split, filter_app.
  rewrite (filter_none has_arrival (filter null_arrival rows)), app_nil_r.
  - apply filter_all, Forall_forall.
    intros r Hr. apply take_incl, filter_In in Hr. tauto.
  - eapply Forall_impl; [|apply (filter_Forall null_arrival)].
    intros r. unfold null_arrival, has_arrival, notna. now intros ->.
Qed.

Lemma visited_sorted_without (A : ArgSort) (pre post : list Row) (r : Row) :
  stop_actual_arrival_time r = None ->
  visited_group (sort_values A (pre ++ r :: post))
  = visited_group (sort_values A (pre ++ post)).
Proof.
  intros Hr. rewrite !visited_sorted.
  rewrite !map_app, !dropna_app, !filter_app. cbn [map dropna filter].
  unfold has_arrival at 2. unfold notna. now rewrite Hr.
Qed.

(** C6.  Adding, at any position of a group, a row that has neither
    timestamp leaves the exact order of the group unchanged. *)
Theorem exact_order_ignores_missing_row
  (A : ArgSort) (pre post : list Row) (r : Row) :
  stop_actual_arrival_time r = None ->
  stop_actual_departure_time r = None ->
  exact_order (sort_values A (pre ++ r :: post))
  = exact_order (sort_values A (pre ++ post)).
Proof.
  intros Ha _. unfold exact_order.
  now rewrite (visited_sorted_without A pre post r Ha).
Qed.

Lemma intended_order_template (group : list Row) :
  intended_order group = intended_template (List.length group).
Proof.
  unfold intended_order, intended_template.
  destruct (2 <? List.length group)%nat eqn:E; [|reflexivity].
  apply Nat.ltb_lt in E.
  destruct (0 <? List.length group - 2)%nat eqn:E'; [|apply Nat.ltb_ge in E'; lia].
  unfold arrow. do 3 f_equal.
  rewrite <- seq_shift, map_map. apply map_ext. intros i. f_equal. lia.
Qed.

Lemma append_assoc (a b c : string) :
  ((a ++ b) ++ c)%string = (a ++ b ++ c)%string.
Proof. induction a as [|x a IH]; cbn; [reflexivity | now rewrite IH]. Qed.

Lemma join_cons (sep x y : string) (rest : list string) :
  Text.join sep (x :: y :: rest)
  = (x ++ sep ++ Text.join sep (y :: rest))%string.
Proof. reflexivity. Qed.

Lemma join_snoc (sep last x : string) (l : list string) :
  Text.join sep ((x :: l) ++ [last])
  = (Text.join sep (x :: l) ++ sep ++ last)%string.
Proof.
  revert x. induction l as [|y l IH]; intros x; [reflexivity|].
  cbn [app]. rewrite !join_cons. cbn [app] in IH.
  now rewrite IH, !append_assoc.
Qed.

End Reconstructor.

(** ** The column check and the loop over the shipments *)

Module Assembler.
Import Frame FrameFacts Analysis Classifier Reconstructor.
Local Open Scope list_scope.

Lemma mem_iff (col : string) (cols : list string) :
  mem col cols = true <-> In col cols.
Proof.
  unfold mem. rewrite existsb_exists. split.
  - intros (c & Hc & E). apply String.eqb_eq in E. now subst.
  - intros H. exists col. split; [exact H | apply String.eqb_refl].
Qed.

Lemma missing_cols_iff (cols : list string) (c : string) :
  In c (missing_cols cols) <-> In c required_cols /\ ~ In c cols.
Proof.
  unfold missing_cols. rewrite filter_In, negb_true_iff.
  split; intros [Hreq H]; (split; [exact Hreq|]).
  - intros Hin. apply mem_iff in Hin. congruence.
  - destruct (mem c cols) eqn:E; [|reflexivity].
    apply mem_iff in E. contradiction.
Qed.

Lemma run_missing (A : ArgSort) (df : Table) :
  missing_cols (normalize (columns df)) <> [] ->
  run A df = StError (missing_message (missing_cols (normalize (columns df)))).
Proof.
  intros H. unfold run.
  now destruct (missing_cols (normalize (columns df))).
Qed.

Lemma run_complete (A : ArgSort) (df : Table) :
  missing_cols (normalize (columns df)) = [] ->
  run A df = match results A (rows df) with
             | Return records => Results records
             | Raise e => Uncaught e
             end.
Proof. intros H. unfold run. now rewrite H. Qed.

Lemma insert_key_In (k x : string) (keys : list string) :
  In x (insert_key k keys) <-> x = k \/ In x keys.
Proof.
  induction keys as [|k' keys IH]; cbn; [intuition congruence|].
  destruct (String.compare k k') eqn:E; cbn.
  - apply String.compare_eq_iff in E. subst. intuition congruence.
  - intuition congruence.
  - rewrite IH. intuition congruence.
Qed.

(** The group keys are the identifiers that occur in the table. *)
Lemma group_keys_In (ids : list string) (k : string) :
  In k (group_keys ids) <-> In k ids.
Proof.
  induction ids as [|i ids IH]; cbn; [tauto|].
  rewrite insert_key_In, IH. intuition congruence.
Qed.

(** [groupby] yields no empty group, and each group holds the rows of
    its key. *)
Lemma groupby_groups (df : list Row) :
  Forall (fun kg => snd kg <> []
                    /\ snd kg = filter (fun r => shipment_id r =? fst kg)%string df)
         (groupby df).
Proof.
  unfold groupby. apply Forall_map, Forall_forall. intros k Hk. cbn.
  split; [|reflexivity].
  apply group_keys_In, in_map_iff in Hk. destruct Hk as (r & <- & Hr).
  intros E.
  assert (H : In r (filter (fun r' => shipment_id r' =? shipment_id r)%string df))
    by (apply filter_In; split; [exact Hr | apply String.eqb_refl]).
  now rewrite E in H.
Qed.

(** The record the loop body builds once the carrier has been read. *)
Definition record_of (A : ArgSort) (shipment_id carrier : string)
  (sub_frame : list Row) : OutputRecord :=
  let group := sort_values A sub_frame in
  {| Shipment_ID := shipment_id;
     Origin_Location := origin_location group;
     Number_of_Stops := List.length group;
     Carrier := carrier;
     Milestone_Status := milestone_status group;
     Out_of_Order := out_of_order_status group;
     Intended_Order := intended_order group;
     Exact_Order := exact_order group;
     Missed_Stops := missed_stops group |}.

Lemma analyse_group_returns (A : ArgSort) (k : string) (sub_frame : list Row) :
  sub_frame <> [] ->
  exists first,
    hd_error (sort_values A sub_frame) = Some first
    /\ analyse_group A k sub_frame
       = Return (record_of A k (current_carrier first) sub_frame).
Proof.
  intros H. unfold analyse_group, record_of.
  pose proof (sort_values_length A sub_frame) as Hlen.
  destruct (sort_values A sub_frame) as [|first group].
  - destruct sub_frame; [contradiction | discriminate].
  - exists first. split; reflexivity.
Qed.

(** A record of the result table, for a group of the table. *)
Definition analysed (A : ArgSort) (record : OutputRecord)
  (kg : string * list Row) : Prop :=
  exists first,
    hd_error (sort_values A (snd kg)) = Some first
    /\ record = record_of A (fst kg) (current_carrier first) (snd kg).

Lemma for_each_group_returns (A : ArgSort) (groups : list (string * list Row)) :
  Forall (fun kg => snd kg <> []) groups ->
  exists records,
    for_each_group A groups = Return records
    /\ Forall2 (analysed A) records groups.
Proof.
  induction 1 as [|[k g] groups Hg _ (records & E & IH)].
  - exists []. split; [reflexivity | constructor].
  - cbn in Hg.
    destruct (analyse_group_returns A k g Hg) as (first & Hfirst & Eg).
    exists (record_of A k (current_carrier first) g :: records).
    split.
    + cbn [for_each_group]. now rewrite Eg, E.
    + constructor; [|exact IH]. now exists first.
Qed.

Lemma sorted_all_missing (A : ArgSort) (sub_frame : list Row) :
  Forall fully_missing sub_frame ->
  Forall fully_missing (sort_values A sub_frame).
Proof.
  intros H. eapply Permutation_Forall; [|exact H].
  symmetry. apply sort_values_Permutation.
Qed.

Lemma no_milestones_fallback (A : ArgSort) (sub_frame : list Row) :
  Forall fully_missing sub_frame ->
  let group := sort_values A sub_frame in
  milestone_status group = "No milestones received"
  /\ out_of_order_status group = "Not Applicable"
  /\ exact_order group = "—".
Proof.
  intros H group. pose proof (sorted_all_missing A sub_frame H) as Hs.
  fold group in Hs.
  assert (Hm : milestone_status group = "No milestones received")
    by now apply no_milestones_iff.
  split; [exact Hm|]. split; [now apply not_applicable_iff|].
  unfold exact_order, visited_group. rewrite filter_none; [reflexivity|].
  eapply Forall_impl; [|exact Hs].
  intros r [Ha _]. unfold notna. now rewrite Ha.
Qed.

Lemma no_origin_fallback (A : ArgSort) (sub_frame : list Row) :
  Forall (fun r => Text.upper (stop_type r) <> "ORIGIN") sub_frame ->
  origin_location (sort_values A sub_frame) = "—".
Proof.
  intros H. unfold origin_location, origin_row.
  rewrite filter_none; [reflexivity|].
  eapply Permutation_Forall; [symmetry; apply sort_values_Permutation|].
  eapply Forall_impl; [|exact H].
  intros r Hr. now apply String.eqb_neq.
Qed.

(** C9.  When no required column is missing, the loop over the shipments
    raises nothing: the run ends with one record per group, each built
    from its sorted group.  Groups of a single row are among them; a
    group whose rows have no timestamp gets the flag "Not Applicable" and
    the dash as exact order, and a group without an origin row gets the
    dash as origin location. *)
Theorem per_shipment_analysis_total (A : ArgSort) (df : Table) :
  missing_cols (normalize (columns df)) = [] ->
  (exists records,
     run A df = Results records
     /\ results A (rows df) = Return records
     /\ Forall2 (analysed A) records (groupby (rows df)))
  /\ (forall k r, exists record,
        analyse_group A k [r] = Return record
        /\ Number_of_Stops record = 1%nat
        /\ Intended_Order record = "Origin → Destination")
  /\ (forall sub_frame,
        Forall fully_missing sub_frame ->
        milestone_status (sort_values A sub_frame) = "No milestones received"
        /\ out_of_order_status (sort_values A sub_frame) = "Not Applicable"
        /\ exact_order (sort_values A sub_frame) = "—")
  /\ (forall sub_frame,
        Forall (fun r => Text.upper (stop_type r) <> "ORIGIN") sub_frame ->
        origin_location (sort_values A sub_frame) = "—").
Proof.
  intros H. split; [|split; [|split]].
  - destruct (for_each_group_returns A (groupby (rows df))) as (records & E & F).
    + eapply Forall_impl; [|apply groupby_groups]. cbn. tauto.
    + exists records. rewrite (run_complete A df H). unfold results.
      rewrite E. auto.
  - intros k r.
    destruct (analyse_group_returns A k [r]) as (first & _ & E);
      [discriminate|].
    eexists. split; [exact E|]. unfold record_of. cbn.
    rewrite intended_order_template, sort_values_length. split; reflexivity.
  - intros sub_frame Hs. exact (no_milestones_fallback A sub_frame Hs).
  - apply no_origin_fallback.
Qed.

(** C10.  A group can be "Completed with all milestones" and still list a
    missed stop: a row with an arrival but no departure time is not fully
    missing, yet one of its timestamps is null. *)
Theorem complete_status_with_missed_stop :
  exists (r : Row),
    stop_actual_arrival_time r <> None
    /\ stop_actual_departure_time r = None
    /\ ~ fully_missing r
    /\ forall A : ArgSort,
         milestone_status (sort_values A [r]) = "Completed with all milestones"
         /\ missed (sort_values A [r]) = [stop_name r]
         /\ missed_stops (sort_values A [r]) <> "—"
         /\ exists record,
              analyse_group A (shipment_id r) [r] = Return record
              /\ Milestone_Status record = "Completed with all milestones"
              /\ Missed_Stops record = stop_name r
              /\ Missed_Stops record <> "—".
Proof.
  exists (mkRow "S1" "Origin" "Depot" "NL" (Some 10%Z) None "Carrier").
  cbn [stop_actual_arrival_time stop_actual_departure_time stop_name shipment_id].
  split; [discriminate|]. split; [reflexivity|].
  split; [intros [E _]; discriminate|].
  intros A.
  assert (E : sort_values A [mkRow "S1" "Origin" "Depot" "NL" (Some 10%Z) None "Carrier"]
              = [mkRow "S1" "Origin" "Depot" "NL" (Some 10%Z) None "Carrier"]).
  { apply Permutation_length_1_inv. symmetry. apply sort_values_Permutation. }
  unfold analyse_group. rewrite E.
  split; [reflexivity|]. split; [reflexivity|]. split; [discriminate|].
  eexists. split; [reflexivity|]. cbn.
  split; [reflexivity|]. split; [reflexivity | discriminate].
Qed.

End Assembler.

(** ** The scenarios of the specification, run with the insertion sort *)

Module Scenarios.
Import Frame FrameFacts Analysis Classifier Reconstructor Assembler Sorters.
Local Open Scope list_scope.

Definition stop (type name : string) (arrival departure : option Z) : Row :=
  mkRow "SHP-1" type name "NL" arrival departure "Carrier".

Definition headers : list string :=
  [ " Shipment ID"; "Stop Type "; "Stop Name"; "Stop Country";
    "Stop Actual Arrival Time"; "Stop Actual Departure Time";
    "Current Carrier"; "Notes" ].

Definition scenario_a : list Row :=
  [ stop "Origin" "A" None None; stop "Destination" "B" None None ].

Definition scenario_b : list Row :=
  [ stop "Origin" "A" (Some 1%Z) (Some 1%Z);
    stop "Stop" "M" (Some 2%Z) (Some 2%Z);
    stop "Destination" "B" (Some 3%Z) (Some 3%Z) ].

Definition scenario_c : list Row :=
  [ stop "Origin" "A" (Some 1%Z) (Some 1%Z);
    stop "Stop" "M" None None;
    stop "Destination" "B" (Some 3%Z) (Some 3%Z) ].

(** Rows recorded against the order of their arrival times, two of them
    at the same time. *)
Definition scenario_d : list Row :=
  [ stop "destination" "B" (Some 7%Z) (Some 8%Z);
    stop "Hub" "M" (Some 4%Z) None;
    stop "ORIGIN" "A" (Some 4%Z) (Some 5%Z);
    stop "Hub" "N" None (Some 6%Z) ].

(** Two shipments, one of a single unvisited row of no known type. *)
Definition two_shipments : Table :=
  {| columns := headers;
     rows := scenario_d
             ++ [ mkRow "SHP-0" "Hub" "Z" "BE" None None "Other" ] |}.

Example scenario_a_record :
  analyse_group insertion "SHP-1" scenario_a
  = Return {| Shipment_ID := "SHP-1";
              Origin_Location := "A";
              Number_of_Stops := 2;
              Carrier := "Carrier";
              Milestone_Status := "No milestones received";
              Out_of_Order := "Not Applicable";
              Intended_Order := "Origin → Destination";
              Exact_Order := "—";
              Missed_Stops := "A, B" |}.
Proof. vm_compute. reflexivity. Qed.

Example scenario_b_record :
  analyse_group insertion "SHP-1" scenario_b
  = Return {| Shipment_ID := "SHP-1";
              Origin_Location := "A";
              Number_of_Stops := 3;
              Carrier := "Carrier";
              Milestone_Status := "Completed with all milestones";
              Out_of_Order := "No";
              Intended_Order := "Origin → Stop1 → Destination";
              Exact_Order := "Origin → Stop1 → Destination";
              Missed_Stops := "—" |}.
Proof. vm_compute. reflexivity. Qed.

Example scenario_c_record :
  analyse_group insertion "SHP-1" scenario_c
  = Return {| Shipment_ID := "SHP-1";
              Origin_Location := "A";
              Number_of_Stops := 3;
              Carrier := "Carrier";
              Milestone_Status := "Completed with missing milestones";
              Out_of_Order := "No";
              Intended_Order := "Origin → Stop1 → Destination";
              Exact_Order := "Origin → Destination";
              Missed_Stops := "M" |}.
Proof. vm_compute. reflexivity. Qed.

(** Read in input order the arrival times of scenario D descend; the
    loop reads them after the sort, and reports "No". *)
Example scenario_d_flags :
  out_of_order_status scenario_d = "Yes"
  /\ map stop_name (sort_values insertion scenario_d) = ["M"; "A"; "B"; "N"]
  /\ out_of_order_status (sort_values insertion scenario_d) = "No"
  /\ exact_order (sort_values insertion scenario_d)
     = "Stop1 → Origin → Destination"
  /\ missed_stops (sort_values insertion scenario_d) = "M, N".
Proof. vm_compute. repeat split; reflexivity. Qed.

(** The contract leaves the order of rows of equal arrival time open: the
    two sorting routines order the tie of scenario D differently, and the
    exact order follows. *)
Example tie_order_is_open :
  map stop_name (sort_values merge scenario_d) = ["A"; "M"; "B"; "N"]
  /\ exact_order (sort_values merge scenario_d)
     = "Origin → Stop1 → Destination"
  /\ exact_order (sort_values insertion scenario_d)
     = "Stop1 → Origin → Destination".
Proof. vm_compute. repeat split; reflexivity. Qed.

Example two_shipments_run :
  exists first second,
    run insertion two_shipments = Results [first; second]
    /\ Shipment_ID first = "SHP-0"
    /\ Origin_Location first = "—"
    /\ Exact_Order first = "—"
    /\ Out_of_Order first = "Not Applicable"
    /\ Shipment_ID second = "SHP-1"
    /\ Number_of_Stops second = 4%nat
    /\ Carrier second = "Carrier".
Proof. do 2 eexists. vm_compute. repeat split. Qed.

Example missing_two_columns :
  run insertion {| columns := ["Shipment ID"; "stop type"; " STOP NAME ";
                            "Stop Actual Arrival Time";
                            "Stop Actual Departure Time"];
                rows := scenario_b |}
  = StError "❌ Missing columns in uploaded file: stop country, current carrier".
Proof. vm_compute. reflexivity. Qed.

(** The row-insertion property at scenario B, with the unvisited stop of
    scenario C added in the middle. *)
Lemma exact_order_ignores_missing_row_witness :
  stop_actual_arrival_time (stop "Stop" "M" None None) = None
  /\ stop_actual_departure_time (stop "Stop" "M" None None) = None
  /\ exact_order
       (sort_values insertion
          ([stop "Origin" "A" (Some 1%Z) (Some 1%Z)]
           ++ stop "Stop" "M" None None
              :: [stop "Destination" "B" (Some 3%Z) (Some 3%Z)]))
     = exact_order
         (sort_values insertion
            ([stop "Origin" "A" (Some 1%Z) (Some 1%Z)]
             ++ [stop "Destination" "B" (Some 3%Z) (Some 3%Z)])).
Proof.
  split; [reflexivity|]. split; [reflexivity|].
  apply (exact_order_ignores_missing_row insertion
           [stop "Origin" "A" (Some 1%Z) (Some 1%Z)]
           [stop "Destination" "B" (Some 3%Z) (Some 3%Z)]
           (stop "Stop" "M" None None)); reflexivity.
Defined.

(** The totality of the loop at the table of two shipments. *)
Lemma per_shipment_analysis_total_witness :
  missing_cols (normalize (columns two_shipments)) = []
  /\ exists records,
       run insertion two_shipments = Results records
       /\ results insertion (rows two_shipments) = Return records
       /\ Forall2 (analysed insertion) records (groupby (rows two_shipments)).
Proof.
  split; [reflexivity|].
  apply (per_shipment_analysis_total insertion two_shipments). reflexivity.
Defined.

End Scenarios.

(** ** More on the column check *)

Module Columns.
Import Frame FrameFacts Analysis Assembler.
Local Open Scope list_scope.

Lemma mem_ext (cols cols' : list string) (c : string) :
  (In c cols -> In c cols') -> mem c cols = true -> mem c cols' = true.
Proof. rewrite !mem_iff. auto. Qed.

Lemma missing_cols_ext (cols cols' : list string) :
  (forall c, In c cols <-> In c cols') ->
  missing_cols cols = missing_cols cols'.
Proof.
  intros H. unfold missing_cols. apply filter_ext. intros c. f_equal.
  destruct (mem c cols) eqn:E, (mem c cols') eqn:E'; try reflexivity.
  - apply (mem_ext cols cols') in E; [congruence | apply H].
  - apply (mem_ext cols' cols) in E'; [congruence | apply H].
Qed.

(** Inclusion of one list of names in another, by computation. *)
Lemma incl_by_mem (cols cols' : list string) :
  forallb (fun c => mem c cols') cols = true -> incl cols cols'.
Proof.
  intros H c Hc. rewrite forallb_forall in H. now apply mem_iff, H.
Qed.

(** X2.  Columns beyond the required ones are ignored: a header row that
    holds every name of another misses no name the other has, and passes
    the check when the other does. *)
Theorem extra_columns_ignored (cols cols' : list string) :
  incl cols cols' ->
  incl (missing_cols cols') (missing_cols cols)
  /\ (missing_cols cols = [] -> missing_cols cols' = []).
Proof.
  intros H.
  assert (Hincl : incl (missing_cols cols') (missing_cols cols)).
  { intros c Hc. apply missing_cols_iff in Hc. apply missing_cols_iff.
    destruct Hc as [Hreq Hnot]. split; [exact Hreq|]. intros Hin.
    apply Hnot, H, Hin. }
  split; [exact Hincl|].
  intros E. rewrite E in Hincl.
  destruct (missing_cols cols') as [|c rest]; [reflexivity|].
  destruct (Hincl c (or_introl eq_refl)).
Qed.

End Columns.

(** ** The groups of a table *)

Module Groups.
Import Frame FrameFacts Analysis Assembler.
Local Open Scope list_scope.

(** Strictly before, in the order of the group keys. *)
Definition key_lt (a b : string) : Prop := String.compare a b = Lt.

(** The rows of a table that belong to shipment [k], in table order. *)
Definition rows_of (k : string) (df : list Row) : list Row :=
  filter (fun r => shipment_id r =? k)%string df.

Lemma compare_lt_trans (a b c : string) :
  key_lt a b -> key_lt b c -> key_lt a c.
Proof.
  unfold key_lt. revert b c.
  induction a as [|x a IH]; intros [|y b] [|z c]; cbn;
    try discriminate; try reflexivity.
  unfold Ascii.compare.
  destruct (N.compare_spec (N_of_ascii x) (N_of_ascii y)),
           (N.compare_spec (N_of_ascii y) (N_of_ascii z)),
           (N.compare_spec (N_of_ascii x) (N_of_ascii z));
    try discriminate; try reflexivity; try lia; eauto.
Qed.

Lemma key_lt_irrefl (a : string) : ~ key_lt a a.
Proof.
  unfold key_lt. intros H. pose proof (String.compare_antisym a a) as E.
  rewrite H in E. discriminate.
Qed.

Lemma insert_key_sorted (k : string) (keys : list string) :
  StronglySorted key_lt keys -> StronglySorted key_lt (insert_key k keys).
Proof.
  induction 1 as [|k' rest Hs IH Hall]; cbn; [repeat constructor|].
  destruct (String.compare k k') eqn:E.
  - now constructor.
  - constructor; [now constructor|].
    constructor; [exact E|].
    eapply Forall_impl; [|exact Hall].
    intros x Hx. exact (compare_lt_trans k k' x E Hx).
  - constructor; [exact IH|].
    apply Forall_forall. intros x Hx. apply insert_key_In in Hx.
    destruct Hx as [->|Hx].
    + unfold key_lt. rewrite String.compare_antisym, E. reflexivity.
    + rewrite Forall_forall in Hall. auto.
Qed.

Lemma group_keys_sorted (ids : list string) :
  StronglySorted key_lt (group_keys ids).
Proof.
  induction ids as [|i ids IH]; cbn; [constructor | now apply insert_key_sorted].
Qed.

Lemma sorted_keys_NoDup (keys : list string) :
  StronglySorted key_lt keys -> NoDup keys.
Proof.
  induction 1 as [|k rest _ IH Hall]; constructor; [|exact IH].
  intros Hin. rewrite Forall_forall in Hall.
  exact (key_lt_irrefl k (Hall k Hin)).
Qed.

Lemma groupby_keys (df : list Row) :
  map fst (groupby df) = group_keys (map shipment_id df).
Proof. unfold groupby. rewrite map_map. cbn. apply map_id. Qed.

Lemma groupby_concat (df : list Row) :
  List.concat (map snd (groupby df))
  = flat_map (fun k => rows_of k df) (group_keys (map shipment_id df)).
Proof. unfold groupby. rewrite map_map. cbn. now rewrite flat_map_concat_map. Qed.

Lemma rows_of_other_key (keys : list string) (r : Row) (df : list Row) :
  ~ In (shipment_id r) keys ->
  flat_map (fun k => rows_of k (r :: df)) keys
  = flat_map (fun k => rows_of k df) keys.
Proof.
  induction keys as [|k keys IH]; intros Hnot; [reflexivity|].
  cbn [flat_map]. rewrite IH by (intros H; apply Hnot; now right).
  f_equal. unfold rows_of. cbn [filter].
  destruct (String.eqb_spec (shipment_id r) k) as [E|E]; [|reflexivity].
  exfalso. apply Hnot. now left.
Qed.

Lemma rows_of_own_key (keys : list string) (r : Row) (df : list Row) :
  NoDup keys -> In (shipment_id r) keys ->
  Permutation (flat_map (fun k => rows_of k (r :: df)) keys)
              (r :: flat_map (fun k => rows_of k df) keys).
Proof.
  induction 1 as [|k keys Hk Hnd IH]; intros Hin; [destruct Hin|].
  cbn [flat_map]. unfold rows_of at 1. cbn [filter].
  destruct (String.eqb_spec (shipment_id r) k) as [E|E].
  - rewrite rows_of_other_key by now rewrite E. reflexivity.
  - destruct Hin as [Hin|Hin]; [congruence|].
    etransitivity; [apply Permutation_app_head, IH, Hin|].
    symmetry. apply Permutation_middle.
Qed.

Lemma rows_of_partition (keys : list string) (df : list Row) :
  NoDup keys ->
  (forall r, In r df -> In (shipment_id r) keys) ->
  Permutation (flat_map (fun k => rows_of k df) keys) df.
Proof.
  intros Hnd. induction df as [|r df IH]; intros Hall.
  - clear. induction keys as [|k keys IH]; [constructor | exact IH].
  - etransitivity; [apply rows_of_own_key; [exact Hnd | apply Hall; now left]|].
    apply perm_skip, IH. intros r' Hr'. apply Hall. now right.
Qed.

(** The groups of [groupby] split a table of rows by shipment: their keys
    are the identifiers of the table, each once, in strictly ascending
    order; the group of a key holds the rows of that identifier, in
    table order; and together the groups hold every row of the table
    exactly once. *)
Lemma groupby_partition (df : list Row) :
  StronglySorted key_lt (map fst (groupby df))
  /\ NoDup (map fst (groupby df))
  /\ (forall k, In k (map fst (groupby df))
                <-> exists r, In r df /\ shipment_id r = k)
  /\ Forall (fun kg => snd kg = rows_of (fst kg) df /\ snd kg <> []) (groupby df)
  /\ Permutation (List.concat (map snd (groupby df))) df.
Proof.
  rewrite groupby_keys, groupby_concat.
  pose proof (group_keys_sorted (map shipment_id df)) as Hs.
  split; [exact Hs|]. split; [now apply sorted_keys_NoDup|].
  split; [|split].
  - intros k. rewrite group_keys_In, in_map_iff.
    split; intros (r & H1 & H2); exists r; tauto.
  - eapply Forall_impl; [|apply groupby_groups].
    intros kg [Hne Heq]. split; [exact Heq | exact Hne].
  - apply rows_of_partition; [now apply sorted_keys_NoDup|].
    intros r Hr. apply group_keys_In, in_map, Hr.
Qed.

Lemma analysed_fields (A : ArgSort) (records : list OutputRecord)
  (groups : list (string * list Row)) :
  Forall2 (analysed A) records groups ->
  map Shipment_ID records = map fst groups
  /\ map Number_of_Stops records = map (fun kg => List.length (snd kg)) groups.
Proof.
  induction 1 as [|record kg records groups (first & _ & ->) _ [IH1 IH2]].
  - split; reflexivity.
  - cbn [map]. rewrite IH1, IH2. unfold record_of. cbn.
    now rewrite sort_values_length.
Qed.

Lemma length_concat_sum {A : Type} (ls : list (list A)) :
  List.length (List.concat ls) = list_sum (map (@List.length A) ls).
Proof.
  induction ls as [|l ls IH]; [reflexivity|].
  cbn. now rewrite length_app, IH.
Qed.

(** The loop returns one record per shipment of the table, in
    ascending order of the identifier; the stop count of a record is the
    number of rows of its shipment, and the counts add up to the number
    of rows of the table. *)
Lemma results_per_shipment (A : ArgSort) (df : list Row) :
  exists records,
    results A df = Return records
    /\ map Shipment_ID records = group_keys (map shipment_id df)
    /\ Forall (fun record =>
                 Number_of_Stops record
                 = List.length (rows_of (Shipment_ID record) df)) records
    /\ list_sum (map Number_of_Stops records) = List.length df
    /\ StronglySorted key_lt (map Shipment_ID records).
Proof.
  destruct (for_each_group_returns A (groupby df)) as (records & E & F).
  { eapply Forall_impl; [|apply groupby_groups]. cbn. tauto. }
  exists records. split; [exact E|].
  destruct (analysed_fields A records (groupby df) F) as [Hid Hn].
  split; [now rewrite Hid, groupby_keys|].
  split; [|split; [|rewrite Hid, groupby_keys; apply group_keys_sorted]].
  - clear E Hid Hn. pose proof (groupby_groups df) as G.
    induction F as [|record kg records groups (first & _ & ->) _ IH];
      [constructor|].
    inversion G as [|? ? [_ Hkg] G']; subst.
    constructor; [|now apply IH].
    unfold record_of. cbn. rewrite sort_values_length. now rewrite Hkg at 1.
  - rewrite Hn.
    rewrite <- (map_map snd (@List.length Row)), <- length_concat_sum.
    rewrite groupby_concat. apply Permutation_length, rows_of_partition.
    + apply sorted_keys_NoDup, group_keys_sorted.
    + intros r Hr. apply group_keys_In, in_map, Hr.
Qed.

End Groups.

(** ** The fields of a record *)

Module Records.
Import Frame FrameFacts Analysis Classifier Grouper Reconstructor Assembler.
Local Open Scope list_scope.

(** The rows of a frame with an arrival time, as [sort_values] orders
    them. *)
Definition front (A : ArgSort) (rows : list Row) : list Row :=
  take (argsort A (dropna (map stop_actual_arrival_time rows)))
       (filter has_arrival rows).

(** A row whose stop type is "ORIGIN" once raised to upper case. *)
Definition is_origin (r : Row) : bool :=
  (Text.upper (stop_type r) =? "ORIGIN")%string.

(** A row that lacks a timestamp. *)
Definition lacks_timestamp (r : Row) : Prop :=
  stop_actual_arrival_time r = None \/ stop_actual_departure_time r = None.

Lemma filter_Permutation {A : Type} (p : A -> bool) (l l' : list A) :
  Permutation l l' -> Permutation (filter p l) (filter p l').
Proof.
  induction 1 as [|x l l' _ IH|x y l|l l' l'' _ IH1 _ IH2]; cbn.
  - constructor.
  - destruct (p x); [now constructor | exact IH].
  - destruct (p x), (p y); try reflexivity. apply perm_swap.
  - etransitivity; eauto.
Qed.

Lemma forallb_Permutation {A : Type} (p : A -> bool) (l l' : list A) :
  Permutation l l' -> forallb p l = forallb p l'.
Proof.
  induction 1 as [|x l l' _ IH|x y l|l l' l'' _ IH1 _ IH2]; cbn.
  - reflexivity.
  - now rewrite IH.
  - now destruct (p x), (p y).
  - congruence.
Qed.

Lemma existsb_Permutation {A : Type} (p : A -> bool) (l l' : list A) :
  Permutation l l' -> existsb p l = existsb p l'.
Proof.
  induction 1 as [|x l l' _ IH|x y l|l l' l'' _ IH1 _ IH2]; cbn.
  - reflexivity.
  - now rewrite IH.
  - now destruct (p x), (p y).
  - congruence.
Qed.

Lemma milestone_status_Permutation (g g' : list Row) :
  Permutation g g' -> milestone_status g = milestone_status g'.
Proof.
  intros H. unfold milestone_status.
  now rewrite (forallb_Permutation _ _ _ H), (existsb_Permutation _ _ _ H).
Qed.

Lemma filter_nil_Forall {A : Type} (p : A -> bool) (l : list A) :
  filter p l = [] -> Forall (fun x => p x = false) l.
Proof.
  induction l as [|x l IH]; cbn; [constructor|].
  destruct (p x) eqn:E; [discriminate|]. intros H. constructor; auto.
Qed.

(** The first element a filter keeps, and where it stands. *)
Lemma filter_first {A : Type} (p : A -> bool) (l : list A) x rest :
  filter p l = x :: rest ->
  exists pre post,
    l = pre ++ x :: post
    /\ Forall (fun y => p y = false) pre /\ p x = true.
Proof.
  induction l as [|y l IH]; cbn; [discriminate|].
  destruct (p y) eqn:E.
  - intros H. injection H as -> _. exists [], l. repeat split; [constructor | exact E].
  - intros H. destruct (IH H) as (pre & post & -> & Hpre & Hx).
    exists (y :: pre), post. repeat split; [now constructor | exact Hx].
Qed.

Lemma sorted_split_front (A : ArgSort) (rows : list Row) :
  sort_values A rows = front A rows ++ filter null_arrival rows.
Proof. apply sort_values_split. Qed.

Lemma front_perm (A : ArgSort) (rows : list Row) :
  Permutation (front A rows) (filter has_arrival rows).
Proof. apply sort_values_front_perm. Qed.

Lemma front_In (A : ArgSort) (rows : list Row) (r : Row) :
  In r (front A rows) <-> In r rows /\ has_arrival r = true.
Proof.
  rewrite <- filter_In. split; apply Permutation_in;
    [|symmetry]; apply front_perm.
Qed.

Lemma has_arrival_time (r : Row) :
  has_arrival r = true -> stop_actual_arrival_time r = Some (arrival_of r).
Proof.
  unfold has_arrival, notna, arrival_of.
  now destruct (stop_actual_arrival_time r).
Qed.

Lemma has_arrival_iff (r : Row) (t : Z) :
  stop_actual_arrival_time r = Some t ->
  has_arrival r = true /\ arrival_of r = t.
Proof. unfold has_arrival, notna, arrival_of. now intros ->. Qed.

Lemma sorted_after (pre post : list Row) (x : Row) :
  StronglySorted arrival_le (pre ++ x :: post) -> Forall (arrival_le x) post.
Proof.
  induction pre as [|y pre IH]; cbn; intros H; inversion H; subst; auto.
Qed.

(** The first row of the sorted group: a row of earliest arrival when
    some row has arrived, and else the first row of the frame. *)
Lemma sorted_head (A : ArgSort) (rows : list Row) (first : Row) :
  hd_error (sort_values A rows) = Some first ->
  In first rows
  /\ ((exists t,
         stop_actual_arrival_time first = Some t
         /\ forall r t',
              In r rows -> stop_actual_arrival_time r = Some t' -> (t <= t')%Z)
      \/ (Forall (fun r => stop_actual_arrival_time r = None) rows
          /\ hd_error rows = Some first)).
Proof.
  intros Hhd.
  assert (Hin : In first rows).
  { apply (Permutation_in _ (sort_values_Permutation A rows)).
    destruct (sort_values A rows) as [|r group]; [discriminate Hhd|].
    cbn in Hhd. injection Hhd as ->. now left. }
  split; [exact Hin|].
  rewrite sorted_split_front in Hhd.
  pose proof (front_sorted A rows) as Hs. fold (front A rows) in Hs.
  pose proof (front_In A rows) as HF.
  pose proof (front_perm A rows) as HP.
  destruct (front A rows) as [|f rest].
  - right. apply Permutation_nil in HP.
    pose proof (filter_nil_Forall _ _ HP) as Hnone.
    assert (Hnull : Forall (fun r => null_arrival r = true) rows).
    { eapply Forall_impl; [|exact Hnone]. intros r.
      unfold has_arrival, null_arrival, notna.
      now destruct (isna (stop_actual_arrival_time r)). }
    split.
    + eapply Forall_impl; [|exact Hnull]. intros r. unfold null_arrival.
      now destruct (stop_actual_arrival_time r).
    + now rewrite (filter_all _ _ Hnull) in Hhd.
  - left. cbn in Hhd. injection Hhd as ->.
    exists (arrival_of first). split.
    + apply has_arrival_time, HF. now left.
    + intros r t' Hr Ht'. apply has_arrival_iff in Ht'. destruct Ht' as [Hh <-].
      destruct (proj2 (HF r) (conj Hr Hh)) as [<-|Hrest]; [lia|].
      inversion Hs as [|? ? _ Hall]; subst.
      rewrite Forall_forall in Hall. exact (Hall r Hrest).
Qed.

(** X10.  The carrier of a record is the carrier of the first row of the
    sorted group: a row of the shipment with the earliest arrival time
    when some row has one, and else the first row of the shipment in
    table order. *)
Theorem carrier_of_earliest_arrival
  (A : ArgSort) (k : string) (rows : list Row) (record : OutputRecord) :
  analyse_group A k rows = Return record ->
  exists first,
    In first rows
    /\ Carrier record = current_carrier first
    /\ ((exists t,
           stop_actual_arrival_time first = Some t
           /\ forall r t',
                In r rows -> stop_actual_arrival_time r = Some t' ->
                (t <= t')%Z)
        \/ (Forall (fun r => stop_actual_arrival_time r = None) rows
            /\ hd_error rows = Some first)).
Proof.
  intros H.
  assert (Hne : rows <> []).
  { intros ->. unfold analyse_group in H.
    pose proof (sort_values_length A []) as Hlen.
    destruct (sort_values A []); [discriminate H | discriminate Hlen]. }
  destruct (analyse_group_returns A k rows Hne) as (first & Hhd & E).
  rewrite E in H. injection H as <-.
  destruct (sorted_head A rows first Hhd) as [Hin Hcases].
  exists first. split; [exact Hin|]. split; [reflexivity | exact Hcases].
Qed.

(** X11.  When the shipment has an origin row, the origin location is the
    stop name of one of its origin rows; when an origin row has an
    arrival time, it is one that arrived no later than every origin row
    with an arrival time. *)
Theorem origin_location_of_earliest_origin (A : ArgSort) (rows : list Row) :
  (exists r, In r rows /\ is_origin r = true) ->
  exists o,
    In o rows
    /\ is_origin o = true
    /\ origin_location (sort_values A rows) = stop_name o
    /\ forall r t',
         In r rows -> is_origin r = true ->
         stop_actual_arrival_time r = Some t' ->
         exists t, stop_actual_arrival_time o = Some t /\ (t <= t')%Z.
Proof.
  intros (r0 & Hr0 & Ho0).
  unfold origin_location, origin_row. fold is_origin.
  rewrite sorted_split_front, filter_app.
  pose proof (front_sorted A rows) as Hs. fold (front A rows) in Hs.
  pose proof (front_In A rows) as HF.
  destruct (filter is_origin (front A rows)) as [|o rest] eqn:EF.
  - pose proof (filter_nil_Forall _ _ EF) as Hnone.
    rewrite Forall_forall in Hnone. cbn [app].
    assert (Hlate : forall r, In r rows -> is_origin r = true ->
                              null_arrival r = true).
    { intros r Hr Ho. unfold null_arrival.
      destruct (stop_actual_arrival_time r) as [t|] eqn:Et; [|reflexivity].
      apply has_arrival_iff in Et. destruct Et as [Hh _].
      specialize (Hnone r (proj2 (HF r) (conj Hr Hh))). congruence. }
    destruct (filter is_origin (filter null_arrival rows)) as [|o rest] eqn:EN.
    + pose proof (filter_nil_Forall _ _ EN) as Hn. rewrite Forall_forall in Hn.
      assert (In r0 (filter null_arrival rows))
        by (apply filter_In; split; [exact Hr0 | now apply Hlate]).
      specialize (Hn r0 H). congruence.
    + assert (Ho : In o (filter is_origin (filter null_arrival rows)))
        by (rewrite EN; now left).
      apply filter_In in Ho. destruct Ho as [Ho Horigin].
      apply filter_In in Ho. destruct Ho as [Ho _].
      exists o. split; [exact Ho|]. split; [exact Horigin|].
      split; [reflexivity|].
      intros r t' Hr Hor Ht'. specialize (Hlate r Hr Hor).
      unfold null_arrival in Hlate. rewrite Ht' in Hlate. discriminate.
  - destruct (filter_first _ _ _ _ EF) as (pre & post & Esplit & Hpre & Horigin).
    assert (Ho : In o (front A rows))
      by (rewrite Esplit; apply in_elt).
    apply HF in Ho. destruct Ho as [Ho Hh].
    exists o. split; [exact Ho|]. split; [exact Horigin|].
    split; [reflexivity|].
    intros r t' Hr Hor Ht'. exists (arrival_of o).
    split; [now apply has_arrival_time|].
    apply has_arrival_iff in Ht'. destruct Ht' as [Hhr <-].
    pose proof (proj2 (HF r) (conj Hr Hhr)) as Hin.
    rewrite Esplit in Hin, Hs. apply in_app_or in Hin.
    destruct Hin as [Hin|[<-|Hin]].
    + rewrite Forall_forall in Hpre. specialize (Hpre r Hin). congruence.
    + lia.
    + apply sorted_after in Hs. rewrite Forall_forall in Hs. exact (Hs r Hin).
Qed.

Lemma lacks_timestamp_iff (r : Row) :
  arrival_missing r || departure_missing r = true <-> lacks_timestamp r.
Proof.
  unfold arrival_missing, departure_missing, lacks_timestamp, isna.
  destruct (stop_actual_arrival_time r), (stop_actual_departure_time r);
    cbn; intuition congruence.
Qed.

Lemma missed_Permutation (g g' : list Row) :
  Permutation g g' -> Permutation (missed g) (missed g').
Proof. intros H. unfold missed. now apply Permutation_map, filter_Permutation. Qed.

Lemma missed_nil_iff (rows : list Row) :
  missed rows = [] <-> Forall (fun r => ~ lacks_timestamp r) rows.
Proof.
  unfold missed. split.
  - intros H. apply map_eq_nil, filter_nil_Forall in H.
    eapply Forall_impl; [|exact H]. cbn. intros r Hr Hl.
    apply lacks_timestamp_iff in Hl. congruence.
  - intros H. rewrite filter_none; [reflexivity|].
    eapply Forall_impl; [|exact H]. cbn. intros r Hr.
    destruct (arrival_missing r || departure_missing r) eqn:E; [|reflexivity].
    apply lacks_timestamp_iff in E. contradiction.
Qed.

Lemma all_missing_lacks (r : Row) :
  all_missing r = true -> arrival_missing r || departure_missing r = true.
Proof. unfold all_missing. now destruct (arrival_missing r). Qed.

(** On the sorted group the flag follows from the status. *)
Lemma flag_of_status (A : ArgSort) (rows : list Row) :
  out_of_order_status (sort_values A rows)
  = if (milestone_status rows =? "No milestones received")%string
    then "Not Applicable" else "No".
Proof.
  unfold out_of_order_status.
  rewrite (milestone_status_Permutation _ _ (sort_values_Permutation A rows)).
  destruct (milestone_status rows =? "No milestones received")%string;
    [reflexivity|].
  destruct (out_of_order (times (sort_values A rows))) eqn:E; [|reflexivity].
  apply out_of_order_iff in E.
  destruct (Sorted_no_descent _ (sorted_times A rows) E).
Qed.

(** X6.  The sort does not change the milestone status or the intended
    order of a shipment, and the out-of-order flag of a record follows
    from its status: "Not Applicable" for "No milestones received", and
    "No" for the two other statuses. *)
Theorem status_and_flag_ignore_sort (A : ArgSort) (rows : list Row) :
  milestone_status (sort_values A rows) = milestone_status rows
  /\ intended_order (sort_values A rows) = intended_order rows
  /\ (milestone_status rows = "No milestones received" ->
      out_of_order_status (sort_values A rows) = "Not Applicable")
  /\ (milestone_status rows <> "No milestones received" ->
      out_of_order_status (sort_values A rows) = "No").
Proof.
  split; [apply milestone_status_Permutation, sort_values_Permutation|].
  split; [now rewrite !intended_order_template, sort_values_length|].
  rewrite flag_of_status.
  destruct (String.eqb_spec (milestone_status rows) "No milestones received");
    split; intros; congruence.
Qed.

(** Two ascending arrangements of the same rows are equal when no two
    rows arrive at the same time. *)
Lemma sorted_arrangement_unique (l1 l2 : list Row) :
  StronglySorted arrival_le l1 -> StronglySorted arrival_le l2 ->
  Permutation l1 l2 -> NoDup (map arrival_of l1) -> l1 = l2.
Proof.
  revert l2. induction l1 as [|x l1 IH]; intros l2 H1 H2 HP Hnd.
  - now apply Permutation_nil in HP.
  - destruct l2 as [|y l2];
      [symmetry in HP; apply Permutation_nil in HP; discriminate|].
    inversion H1 as [|? ? H1' Hx]; subst.
    inversion H2 as [|? ? H2' Hy]; subst.
    inversion Hnd as [|? ? Hnotin Hnd']; subst.
    rewrite Forall_forall in Hx, Hy.
    assert (E : x = y).
    { assert (Hyin : In y (x :: l1))
        by (apply (Permutation_in _ (Permutation_sym HP)); now left).
      destruct Hyin as [E|Hyin]; [exact E|].
      assert (Hxin : In x (y :: l2))
        by (apply (Permutation_in _ HP); now left).
      destruct Hxin as [E|Hxin]; [now symmetry|].
      exfalso. apply Hnotin.
      pose proof (Hx y Hyin) as Hle1. pose proof (Hy x Hxin) as Hle2.
      unfold arrival_le in Hle1, Hle2.
      replace (arrival_of x) with (arrival_of y) by lia.
      now apply in_map. }
    subst y. f_equal. apply IH; auto.
    now apply Permutation_cons_inv in HP.
Qed.

Lemma times_front (A : ArgSort) (rows : list Row) :
  Permutation (map arrival_of (front A rows)) (times rows).
Proof.
  unfold times.
  rewrite <- dropna_filter_present,
    (dropna_all_present _ (filter_Forall has_arrival rows)).
  apply Permutation_map, front_perm.
Qed.

Lemma front_unique (A A' : ArgSort) (rows rows' : list Row) :
  Permutation rows rows' -> NoDup (times rows) ->
  front A rows = front A' rows'.
Proof.
  intros HP Hnd. apply sorted_arrangement_unique.
  - apply front_sorted.
  - apply front_sorted.
  - etransitivity; [apply front_perm|].
    etransitivity; [apply filter_Permutation, HP|].
    symmetry. apply front_perm.
  - eapply Permutation_NoDup; [symmetry; apply times_front | exact Hnd].
Qed.

(** X7.  When no two rows of a shipment arrive at the same time, the
    sorted group, and with it the whole record, does not depend on the
    sorting routine. *)
Theorem record_independent_of_routine
  (A A' : ArgSort) (k : string) (rows : list Row) :
  NoDup (times rows) ->
  sort_values A rows = sort_values A' rows
  /\ analyse_group A k rows = analyse_group A' k rows.
Proof.
  intros Hnd.
  assert (E : sort_values A rows = sort_values A' rows).
  { rewrite !sorted_split_front. f_equal.
    now apply front_unique. }
  split; [exact E|]. unfold analyse_group. now rewrite E.
Qed.

(** X8.  When no two rows of a shipment arrive at the same time, the
    order of its rows in the table does not matter to the exact order;
    it never matters to the status, the flag, the intended order and
    the stop count. *)
Theorem record_independent_of_row_order
  (A A' : ArgSort) (rows rows' : list Row) :
  Permutation rows rows' ->
  NoDup (times rows) ->
  exact_order (sort_values A rows) = exact_order (sort_values A' rows')
  /\ milestone_status (sort_values A rows)
     = milestone_status (sort_values A' rows')
  /\ out_of_order_status (sort_values A rows)
     = out_of_order_status (sort_values A' rows')
  /\ intended_order (sort_values A rows)
     = intended_order (sort_values A' rows')
  /\ List.length (sort_values A rows) = List.length (sort_values A' rows').
Proof.
  intros HP Hnd.
  assert (Hs : milestone_status rows = milestone_status rows')
    by now apply milestone_status_Permutation.
  assert (Hl : List.length rows = List.length rows')
    by now apply Permutation_length.
  split; [|split; [|split; [|split]]].
  - unfold exact_order. rewrite !visited_sorted.
    fold (front A rows) (front A' rows').
    now rewrite (front_unique A A' rows rows').
  - rewrite !(milestone_status_Permutation _ _ (sort_values_Permutation _ _)).
    exact Hs.
  - now rewrite !flag_of_status, Hs.
  - now rewrite !intended_order_template, !sort_values_length, Hl.
  - now rewrite !sort_values_length.
Qed.

Lemma labels_from_intermediate (k : nat) (mids rest : list string) :
  Forall (fun s => intermediate s = true) mids ->
  labels_from k (mids ++ rest)
  = map stop_label (seq k (List.length mids))
    ++ labels_from (k + List.length mids) rest.
Proof.
  intros H. revert k. induction H as [|s mids Hs _ IH]; intros k.
  - cbn. now rewrite Nat.add_0_r.
  - cbn [app labels_from List.length seq map]. rewrite Hs, IH.
    f_equal.
    + unfold label_of. unfold intermediate in Hs.
      destruct (Text.lower s =? "origin")%string; [discriminate|].
      destruct (Text.lower s =? "destination")%string; [discriminate|].
      reflexivity.
    + do 2 f_equal. lia.
Qed.

Lemma template_join (m : nat) :
  intended_template (m + 2)
  = Text.join " → " ("Origin" :: map stop_label (seq 1 m) ++ ["Destination"]).
Proof.
  unfold intended_template.
  destruct m as [|m]; [reflexivity|].
  replace (2 <? S m + 2)%nat with true by (symmetry; apply Nat.ltb_lt; lia).
  replace (S m + 2 - 2)%nat with (S m) by lia.
  cbn [seq map]. rewrite app_comm_cons, join_snoc, join_cons.
  reflexivity.
Qed.

(** X9.  For a group whose rows all have an arrival time and whose stop
    types read, in the group's order, an origin, then intermediate
    stops, then a destination, the exact order equals the intended
    order. *)
Theorem exact_order_matches_intended
  (group : list Row) (o d : string) (mids : list string) :
  Forall (fun r => stop_actual_arrival_time r <> None) group ->
  map stop_type group = o :: mids ++ [d] ->
  Text.lower o = "origin" ->
  Forall (fun s => intermediate s = true) mids ->
  Text.lower d = "destination" ->
  exact_order group = intended_order group.
Proof.
  intros Hv Htypes Ho Hmids Hd.
  rewrite intended_order_template.
  replace (List.length group) with (List.length mids + 2)%nat.
  2:{ rewrite <- (length_map stop_type group), Htypes.
      cbn. rewrite length_app. cbn. lia. }
  rewrite template_join.
  unfold exact_order, visited_group. rewrite filter_all.
  2:{ eapply Forall_impl; [|exact Hv]. intros r. unfold notna.
      now destruct (stop_actual_arrival_time r). }
  rewrite Htypes, actual_labels_eq.
  cbn [labels_from]. unfold label_of at 1, intermediate at 1.
  rewrite Ho. cbn [String.eqb Ascii.eqb Bool.eqb negb andb].
  rewrite (labels_from_intermediate 1 mids [d] Hmids).
  cbn [labels_from]. unfold label_of. rewrite Hd.
  reflexivity.
Qed.

End Records.

(** ** The result frame *)

Module Report.
Import Frame FrameFacts Analysis Assembler.
Local Open Scope list_scope.

(** The keys of a record of [results], in the order they are written. *)
Definition output_columns : list string :=
  [ "Shipment ID"; "Origin Location"; "Number of Stops"; "Carrier";
    "Milestone Status"; "Out of Order"; "Intended Order"; "Exact Order";
    "Missed Stops" ].

(** A data frame of output records: its column labels and its rows. *)
Record DataFrame : Type := mkFrame {
  frame_columns : list string;
  frame_records : list OutputRecord
}.

(** [pd.DataFrame(results)]: the column labels are the keys of the
    dictionaries, so a frame built from no dictionary has none. *)
Definition DataFrame_of (results : list OutputRecord) : DataFrame :=
  {| frame_columns := match results with
                      | [] => []
                      | _ :: _ => output_columns
                      end;
     frame_records := results |}.

(** What indexing a frame by a column label can raise. *)
Inductive frame_exn : Type :=
| KeyError (key : string).

(** [result_df[col] = result_df[col].astype(str)].  Reading a column the
    frame does not have raises; the two columns converted hold strings,
    which [astype(str)] leaves as they are. *)
Definition astype_str (col : string) (df : DataFrame) : frame_exn + DataFrame :=
  if mem col (frame_columns df) then inr df else inl (KeyError col).

(** The frame after the loop [for col in ["Intended Order", "Exact Order"]]. *)
Definition result_df (results : list OutputRecord) : frame_exn + DataFrame :=
  fold_left
    (fun acc col =>
       match acc with
       | inr df => astype_str col df
       | inl e => inl e
       end)
    ["Intended Order"; "Exact Order"]
    (inr (DataFrame_of results)).

Lemma result_df_empty : result_df [] = inl (KeyError "Intended Order").
Proof. reflexivity. Qed.

Lemma result_df_records (record : OutputRecord) (records : list OutputRecord) :
  result_df (record :: records)
  = inr {| frame_columns := output_columns;
           frame_records := record :: records |}.
Proof. reflexivity. Qed.

Lemma insert_key_not_nil (k : string) (keys : list string) :
  insert_key k keys <> [].
Proof.
  destruct keys as [|k' rest]; cbn; [discriminate|].
  destruct (String.compare k k'); discriminate.
Qed.

Lemma groupby_nil_iff (df : list Row) : groupby df = [] <-> df = [].
Proof.
  split; [|now intros ->].
  destruct df as [|r df]; [reflexivity|].
  unfold groupby. cbn [map group_keys fold_right]. intros H.
  apply map_eq_nil in H. now apply insert_key_not_nil in H.
Qed.

Lemma results_nil_iff (A : ArgSort) (df : list Row) (records : list OutputRecord) :
  results A df = Return records -> (records = [] <-> df = []).
Proof.
  intros E.
  destruct (for_each_group_returns A (groupby df)) as (records' & E' & F).
  { eapply Forall_impl; [|apply groupby_groups]. cbn. tauto. }
  unfold results in E. rewrite E' in E. injection E as ->.
  rewrite <- groupby_nil_iff. apply Forall2_length in F.
  split; intros H; rewrite H in F; cbn in F.
  - now apply length_zero_iff_nil.
  - now apply length_zero_iff_nil.
Qed.

End Report.

(** ** The properties above at the scenarios *)

Module Checks.
Import Frame FrameFacts Analysis Classifier Reconstructor Assembler Sorters.
Import Scenarios Columns Groups Records Report.
Local Open Scope list_scope.

Lemma extra_columns_ignored_witness :
  incl required_cols (required_cols ++ ["notes"])
  /\ incl (missing_cols (required_cols ++ ["notes"])) (missing_cols required_cols)
  /\ (missing_cols required_cols = [] ->
      missing_cols (required_cols ++ ["notes"]) = []).
Proof.
  split; [apply incl_appl, incl_refl|].
  apply (extra_columns_ignored required_cols (required_cols ++ ["notes"])).
  apply incl_appl, incl_refl.
Defined.

Lemma scenario_b_times_distinct : NoDup (times scenario_b).
Proof.
  cbn. repeat constructor; cbn; intuition discriminate.
Qed.

Lemma record_independent_of_routine_witness :
  NoDup (times scenario_b)
  /\ sort_values insertion scenario_b = sort_values merge scenario_b
  /\ analyse_group insertion "SHP-1" scenario_b
     = analyse_group merge "SHP-1" scenario_b.
Proof.
  split; [exact scenario_b_times_distinct|].
  apply (record_independent_of_routine insertion merge "SHP-1" scenario_b).
  exact scenario_b_times_distinct.
Defined.

Lemma record_independent_of_row_order_witness :
  Permutation scenario_b (rev scenario_b)
  /\ NoDup (times scenario_b)
  /\ exact_order (sort_values insertion scenario_b)
     = exact_order (sort_values merge (rev scenario_b)).
Proof.
  split; [apply Permutation_rev|]. split; [exact scenario_b_times_distinct|].
  apply (record_independent_of_row_order insertion merge
           scenario_b (rev scenario_b));
    [apply Permutation_rev | exact scenario_b_times_distinct].
Defined.

Lemma exact_order_matches_intended_witness :
  Forall (fun r => stop_actual_arrival_time r <> None) scenario_b
  /\ map stop_type scenario_b = "Origin" :: ["Stop"] ++ ["Destination"]
  /\ exact_order scenario_b = intended_order scenario_b.
Proof.
  assert (Hv : Forall (fun r => stop_actual_arrival_time r <> None) scenario_b)
    by (repeat constructor; discriminate).
  split; [exact Hv|]. split; [reflexivity|].
  apply (exact_order_matches_intended scenario_b "Origin" "Destination" ["Stop"]);
    [exact Hv | reflexivity | reflexivity | repeat constructor | reflexivity].
Defined.

Lemma carrier_of_earliest_arrival_witness :
  analyse_group insertion "SHP-1" scenario_d
  = Return (record_of insertion "SHP-1" "Carrier" scenario_d)
  /\ exists first,
       In first scenario_d
       /\ Carrier (record_of insertion "SHP-1" "Carrier" scenario_d)
          = current_carrier first.
Proof.
  split; [reflexivity|].
  destruct (carrier_of_earliest_arrival insertion "SHP-1" scenario_d
              (record_of insertion "SHP-1" "Carrier" scenario_d) eq_refl)
    as (first & Hin & Hc & _).
  exists first. split; assumption.
Defined.

Lemma origin_location_of_earliest_origin_witness :
  (exists r, In r scenario_d /\ is_origin r = true)
  /\ exists o,
       In o scenario_d
       /\ is_origin o = true
       /\ origin_location (sort_values merge scenario_d) = stop_name o.
Proof.
  assert (H : exists r, In r scenario_d /\ is_origin r = true).
  { exists (stop "ORIGIN" "A" (Some 4%Z) (Some 5%Z)).
    split; [cbn; tauto | reflexivity]. }
  split; [exact H|].
  destruct (origin_location_of_earliest_origin merge scenario_d H)
    as (o & Hin & Ho & Hname & _).
  exists o. repeat split; assumption.
Defined.

End Checks.

(** ** The wording of the specification

    The terms the specification uses for strings, stated on their own:
    equality of two strings when case is ignored, the decimal numeral of
    a number, and a list of strings joined by a separator.  The string
    operations of the program are then shown to compute them. *)

Module Wording.
Import Frame FrameFacts Analysis Classifier Reconstructor Assembler Records.
Local Open Scope list_scope.

(** A capital letter of the ASCII alphabet. *)
Definition is_capital (c : ascii) : bool :=
  (65 <=? nat_of_ascii c)%nat && (nat_of_ascii c <=? 90)%nat.

(** Two characters are the same letter when they are equal, or when one
    is a capital letter and the other is its small form, 32 further. *)
Definition same_letter (c d : ascii) : bool :=
  (c =? d)%char
  || (is_capital c && (nat_of_ascii d =? nat_of_ascii c + 32)%nat)
  || (is_capital d && (nat_of_ascii c =? nat_of_ascii d + 32)%nat).

(** Two strings are equal when case is ignored: they have the same
    length and, position by position, the same letter. *)
Fixpoint same_ignoring_case (s t : string) : bool :=
  match s, t with
  | EmptyString, EmptyString => true
  | String c s', String d t' => same_letter c d && same_ignoring_case s' t'
  | _, _ => false
  end.

(** The value of a decimal digit. *)
Definition digit_value (c : ascii) : option nat :=
  if (48 <=? nat_of_ascii c)%nat && (nat_of_ascii c <=? 57)%nat
  then Some (nat_of_ascii c - 48)%nat
  else None.

(** The number a string of digits denotes, read from the left. *)
Fixpoint decimal_value_from (acc : nat) (s : string) : option nat :=
  match s with
  | EmptyString => Some acc
  | String c rest =>
      match digit_value c with
      | Some d => decimal_value_from (10 * acc + d) rest
      | None => None
      end
  end.

(** [s] is the decimal numeral of [n]: a string of digits, not empty,
    that denotes [n] and starts with the digit 0 only when it is "0". *)
Definition decimal_of (n : nat) (s : string) : Prop :=
  s <> EmptyString
  /\ decimal_value_from 0 s = Some n
  /\ (forall rest, s = String "0"%char rest -> rest = EmptyString).

(** The parts, in order, with the separator between each two of them. *)
Definition joined (sep : string) (parts : list string) : string :=
  match parts with
  | [] => EmptyString
  | first :: others =>
      fold_left (fun text part => (text ++ sep ++ part)%string) others first
  end.

(** A row that has an arrival time. *)
Definition arrived (r : Row) : bool :=
  match stop_actual_arrival_time r with
  | Some _ => true
  | None => false
  end.

(** A row that lacks its arrival or its departure time. *)
Definition lacks_a_timestamp (r : Row) : bool :=
  match stop_actual_arrival_time r, stop_actual_departure_time r with
  | Some _, Some _ => false
  | _, _ => true
  end.

(** A stop type that names neither the origin nor the destination. *)
Definition names_intermediate (s : string) : bool :=
  negb (same_ignoring_case s "origin")
  && negb (same_ignoring_case s "destination").

(** The number of intermediate stops among the first [i] stop types. *)
Definition intermediates_before (i : nat) (stop_types : list string) : nat :=
  List.length (filter names_intermediate (firstn i stop_types)).

(** *** The string operations of the program compute these *)

Definition all_ascii : list ascii := map ascii_of_nat (seq 0 256).

Lemma in_all_ascii (c : ascii) : In c all_ascii.
Proof.
  unfold all_ascii. rewrite <- (ascii_nat_embedding c).
  apply in_map, in_seq. pose proof (nat_ascii_bounded c). lia.
Qed.

Lemma lower_char_same_letter (c d : ascii) :
  (Text.lower_char c =? Text.lower_char d)%char = same_letter c d.
Proof.
  assert (H : forallb
                (fun c => forallb
                   (fun d => Bool.eqb
                      (Text.lower_char c =? Text.lower_char d)%char
                      (same_letter c d)) all_ascii) all_ascii = true)
    by (vm_compute; reflexivity).
  rewrite forallb_forall in H. specialize (H c (in_all_ascii c)).
  rewrite forallb_forall in H. specialize (H d (in_all_ascii d)).
  now apply Bool.eqb_prop.
Qed.

Lemma lower_same_ignoring_case (s t : string) :
  (Text.lower s =? Text.lower t)%string = same_ignoring_case s t.
Proof.
  revert t. induction s as [|c s IH]; intros [|d t]; try reflexivity.
  cbn [Text.lower same_ignoring_case String.eqb].
  rewrite <- lower_char_same_letter, <- IH.
  now destruct (Text.lower_char c =? Text.lower_char d)%char.
Qed.

(** Comparing the lowered stop type with a constant in small letters is
    comparing the stop type with it, ignoring case. *)
Lemma lower_eqb_constant (s t : string) :
  Text.lower t = t ->
  (Text.lower s =? t)%string = same_ignoring_case s t.
Proof. intros H. now rewrite <- lower_same_ignoring_case, H. Qed.

Lemma intermediate_names (s : string) : intermediate s = names_intermediate s.
Proof.
  unfold intermediate, names_intermediate.
  now rewrite !lower_eqb_constant by reflexivity.
Qed.

Lemma count_intermediate_before (i : nat) (stop_types : list string) :
  count_intermediate (firstn i stop_types) = intermediates_before i stop_types.
Proof.
  unfold count_intermediate, intermediates_before. f_equal.
  apply filter_ext, intermediate_names.
Qed.

Lemma decimal_value_of_uint (d : Decimal.uint) (acc : nat) :
  decimal_value_from acc (NilEmpty.string_of_uint d)
  = Some (Nat.of_uint_acc d acc).
Proof.
  revert acc. induction d; intros acc; cbn [NilEmpty.string_of_uint];
    [reflexivity|..];
    cbn [decimal_value_from Nat.of_uint_acc];
    match goal with
    | |- context [digit_value ?c] =>
        let v := eval vm_compute in (digit_value c) in
        change (digit_value c) with v
    end;
    cbv beta iota; rewrite IHd; do 2 f_equal; rewrite Nat.tail_mul_spec; lia.
Qed.

Lemma to_uint_canonical (n : nat) : Decimal.unorm (Nat.to_uint n) = Nat.to_uint n.
Proof.
  rewrite <- (DecimalNat.Unsigned.of_to n) at 2.
  now rewrite DecimalNat.Unsigned.to_of.
Qed.

(** [str(n)] is the decimal numeral of [n]. *)
Lemma str_nat_decimal (n : nat) : decimal_of n (Text.str_nat n).
Proof.
  unfold decimal_of, Text.str_nat, NilZero.string_of_uint.
  pose proof (to_uint_canonical n) as Hc.
  pose proof (DecimalNat.Unsigned.of_to n) as Hv. unfold Nat.of_uint in Hv.
  destruct (Nat.to_uint n) as [|d|d|d|d|d|d|d|d|d|d] eqn:E;
    cbv beta iota;
    try (split; [discriminate|];
         split; [now rewrite decimal_value_of_uint, Hv|];
         cbn; intros rest H; discriminate).
  - discriminate Hc.
  - split; [discriminate|].
    split; [now rewrite decimal_value_of_uint, Hv|].
    cbn. intros rest H. injection H as <-.
    rewrite DecimalFacts.unorm_D0 in Hc. unfold Decimal.unorm in Hc.
    destruct (Decimal.nzhead d) eqn:Ed; try discriminate Hc.
    + injection Hc as <-. reflexivity.
    + destruct (DecimalFacts.nzhead_nonzero d _ Ed).
Qed.

Lemma joined_prefix (sep a b : string) (parts : list string) :
  fold_left (fun text part => (text ++ sep ++ part)%string) parts (a ++ b)%string
  = (a ++ fold_left (fun text part => (text ++ sep ++ part)%string) parts b)%string.
Proof.
  revert b. induction parts as [|p parts IH]; intros b; [reflexivity|].
  cbn [fold_left]. now rewrite append_assoc, IH.
Qed.

(** [sep.join(parts)] is the parts joined by the separator. *)
Lemma join_joined (sep : string) (parts : list string) :
  Text.join sep parts = joined sep parts.
Proof.
  destruct parts as [|x parts]; [reflexivity|].
  revert x. induction parts as [|y parts IH]; intros x; [reflexivity|].
  rewrite join_cons, IH. cbn [joined fold_left].
  now rewrite !joined_prefix.
Qed.

Lemma label_of_wording (k : nat) (s : string) :
  (same_ignoring_case s "origin" = true -> label_of k s = "Origin")
  /\ (same_ignoring_case s "origin" = false ->
      same_ignoring_case s "destination" = true ->
      label_of k s = "Destination")
  /\ (same_ignoring_case s "origin" = false ->
      same_ignoring_case s "destination" = false ->
      exists digits,
        label_of k s = ("Stop" ++ digits)%string /\ decimal_of k digits).
Proof.
  unfold label_of. rewrite !lower_eqb_constant by reflexivity.
  repeat split.
  - now intros ->.
  - now intros -> ->.
  - intros -> ->. exists (Text.str_nat k).
    split; [reflexivity | apply str_nat_decimal].
Qed.

(** C5.  The exact order is built from exactly the rows of the group
    that have an arrival time, in the group's order, one label per row.
    The label is "Origin" when the stop type equals "origin" with case
    ignored, "Destination" when it so equals "destination", and
    otherwise "Stop" followed by the decimal numeral of K, where K is
    one more than the number of intermediate stops before the row.  The
    labels are joined by " → "; without such a row the result is the
    dash. *)
Theorem exact_order_wording (group : list Row) :
  let visited := filter arrived group in
  let stop_types := map stop_type visited in
  exists labels,
    List.length labels = List.length visited
    /\ (forall i s,
          nth_error stop_types i = Some s ->
          exists label,
            nth_error labels i = Some label
            /\ (same_ignoring_case s "origin" = true -> label = "Origin")
            /\ (same_ignoring_case s "origin" = false ->
                same_ignoring_case s "destination" = true ->
                label = "Destination")
            /\ (same_ignoring_case s "origin" = false ->
                same_ignoring_case s "destination" = false ->
                exists digits,
                  label = ("Stop" ++ digits)%string
                  /\ decimal_of (1 + intermediates_before i stop_types)
                                digits))
    /\ exact_order group
       = match visited with
         | [] => "—"
         | _ :: _ => joined " → " labels
         end.
Proof.
  assert (E : filter arrived group = filter has_arrival group).
  { apply filter_ext. intros r. unfold arrived, has_arrival, notna, isna.
    now destruct (stop_actual_arrival_time r). }
  cbn zeta. rewrite E.
  exists (labels_from 1 (map stop_type (filter has_arrival group))).
  split; [now rewrite labels_from_length, length_map|]. split.
  - intros i s H.
    exists (label_of (1 + intermediates_before
                           i (map stop_type (filter has_arrival group))) s).
    split; [|apply label_of_wording].
    rewrite <- count_intermediate_before.
    exact (nth_error_labels_from _ 1 i s H).
  - unfold exact_order, visited_group. rewrite actual_labels_eq.
    change (fun r => notna (stop_actual_arrival_time r)) with has_arrival.
    destruct (filter has_arrival group) as [|r visited]; [reflexivity|].
    cbn [map labels_from]. unfold arrow. now rewrite join_joined.
Qed.

Lemma nth_error_stop_labels (m k : nat) :
  (k < m)%nat ->
  exists digits,
    nth_error (map stop_label (seq 1 m)) k = Some ("Stop" ++ digits)%string
    /\ decimal_of (k + 1) digits.
Proof.
  intros H. exists (Text.str_nat (k + 1)). split; [|apply str_nat_decimal].
  rewrite nth_error_map, nth_error_seq.
  replace (k <? m)%nat with true by (symmetry; now apply Nat.ltb_lt).
  cbn [option_map]. now replace (1 + k)%nat with (k + 1)%nat by lia.
Qed.

(** C7.  The intended order is a function of the number of rows alone:
    groups of equal size have the same intended order.  For at most two
    rows it is "Origin → Destination".  For N rows, N above two, it is
    "Origin", then N-2 labels, then "Destination", joined by " → "; the
    label at position K, counted from one, is "Stop" followed by the
    decimal numeral of K. *)
Theorem intended_order_wording :
  (forall g1 g2 : list Row,
     List.length g1 = List.length g2 ->
     intended_order g1 = intended_order g2)
  /\ (forall group : list Row,
        (List.length group <= 2)%nat ->
        intended_order group = "Origin → Destination")
  /\ (forall group : list Row,
        (2 < List.length group)%nat ->
        exists stops,
          List.length stops = (List.length group - 2)%nat
          /\ (forall k,
                (k < List.length group - 2)%nat ->
                exists digits,
                  nth_error stops k = Some ("Stop" ++ digits)%string
                  /\ decimal_of (k + 1) digits)
          /\ intended_order group
             = joined " → " ("Origin" :: stops ++ ["Destination"])).
Proof.
  split; [intros g1 g2 H; now rewrite !intended_order_template, H|].
  split.
  - intros group H. rewrite intended_order_template. unfold intended_template.
    now replace (2 <? List.length group)%nat with false
      by (symmetry; apply Nat.ltb_ge; lia).
  - intros group H.
    exists (map stop_label (seq 1 (List.length group - 2))).
    split; [now rewrite length_map, length_seq|].
    split; [intros k Hk; now apply nth_error_stop_labels|].
    rewrite intended_order_template.
    replace (List.length group) with (List.length group - 2 + 2)%nat at 1 by lia.
    now rewrite template_join, join_joined.
Qed.

Lemma lacks_a_timestamp_eq (r : Row) :
  arrival_missing r || departure_missing r = lacks_a_timestamp r.
Proof.
  unfold arrival_missing, departure_missing, lacks_a_timestamp, isna.
  now destruct (stop_actual_arrival_time r), (stop_actual_departure_time r).
Qed.

Lemma missed_names (group : list Row) :
  missed group = map stop_name (filter lacks_a_timestamp group).
Proof.
  unfold missed. f_equal. apply filter_ext, lacks_a_timestamp_eq.
Qed.

(** X5.  The missed stops of a record are the stop names of the rows
    that lack an arrival or a departure time, one name per such row, in
    the order of the sorted group, joined by ", ".  The list is empty
    exactly when every row has both timestamps, and then the dash is
    shown and a group with rows has the status "Completed with all
    milestones"; it is not empty when the status is "Completed with
    missing milestones", and has one name per row when the status is
    "No milestones received". *)
Theorem missed_stops_names (A : ArgSort) (rows : list Row) :
  missed (sort_values A rows)
  = map stop_name (filter lacks_a_timestamp (sort_values A rows))
  /\ Permutation (missed (sort_values A rows))
                 (map stop_name (filter lacks_a_timestamp rows))
  /\ List.length (missed (sort_values A rows))
     = List.length (filter lacks_a_timestamp rows)
  /\ missed_stops (sort_values A rows)
     = match filter lacks_a_timestamp rows with
       | [] => "—"
       | _ :: _ => joined ", " (missed (sort_values A rows))
       end
  /\ (missed (sort_values A rows) = []
      <-> Forall (fun r => ~ lacks_timestamp r) rows)
  /\ (milestone_status (sort_values A rows) = "Completed with missing milestones"
      -> missed (sort_values A rows) <> [])
  /\ (milestone_status (sort_values A rows) = "No milestones received"
      -> List.length (missed (sort_values A rows)) = List.length rows)
  /\ (missed (sort_values A rows) = [] ->
      rows <> [] ->
      milestone_status (sort_values A rows) = "Completed with all milestones").
Proof.
  pose proof (missed_Permutation _ _ (sort_values_Permutation A rows)) as HP.
  rewrite (milestone_status_Permutation _ _ (sort_values_Permutation A rows)).
  assert (Hnil : missed (sort_values A rows) = [] <-> missed rows = []).
  { split; intros E; rewrite E in HP;
      [apply Permutation_nil | symmetry in HP; apply Permutation_nil in HP];
      assumption. }
  assert (Hlen : List.length (missed (sort_values A rows))
                 = List.length (filter lacks_a_timestamp rows)).
  { rewrite (Permutation_length HP), (missed_names rows). apply length_map. }
  split; [apply missed_names|].
  split; [now rewrite <- (missed_names rows)|].
  split; [exact Hlen|].
  split.
  { unfold missed_stops.
    destruct (filter lacks_a_timestamp rows) as [|r rest];
      destruct (missed (sort_values A rows)) as [|name names] eqn:E;
      try discriminate Hlen; [reflexivity|].
    apply join_joined. }
  split; [now rewrite Hnil, missed_nil_iff|].
  split; [|split].
  - unfold milestone_status.
    destruct (forallb all_missing rows); [discriminate|].
    destruct (existsb all_missing rows) eqn:E; [|discriminate].
    intros _ Hn. apply Hnil in Hn. apply existsb_exists in E.
    destruct E as (r & Hr & Hm).
    assert (Hin : In (stop_name r) (missed rows)).
    { apply in_map, filter_In. split; [exact Hr | now apply all_missing_lacks]. }
    now rewrite Hn in Hin.
  - unfold milestone_status.
    destruct (forallb all_missing rows) eqn:E;
      [|destruct (existsb all_missing rows); discriminate].
    intros _. rewrite (Permutation_length HP). unfold missed.
    rewrite length_map, filter_all; [reflexivity|].
    apply Forall_forall. intros r Hr.
    rewrite forallb_forall in E. now apply all_missing_lacks, E.
  - intros Hn Hne. apply Hnil, missed_nil_iff in Hn.
    assert (Hnone : forall r, In r rows -> all_missing r = false).
    { intros r Hr. rewrite Forall_forall in Hn.
      destruct (all_missing r) eqn:E; [|reflexivity].
      apply all_missing_lacks, lacks_timestamp_iff in E.
      now apply Hn in E. }
    unfold milestone_status.
    destruct rows as [|r rest]; [contradiction|].
    cbn [forallb]. rewrite (Hnone r (or_introl eq_refl)). cbn [andb].
    destruct (existsb all_missing (r :: rest)) eqn:E; [|reflexivity].
    apply existsb_exists in E. destruct E as (x & Hx & Hm).
    rewrite (Hnone x Hx) in Hm. discriminate.
Qed.

(** The numerals of some numbers, and a string that is not one. *)
Example decimal_numerals :
  decimal_of 0 "0" /\ decimal_of 7 "7" /\ decimal_of 12 "12"
  /\ ~ decimal_of 1 "01" /\ ~ decimal_of 1 "" /\ ~ decimal_of 1 "1a".
Proof.
  unfold decimal_of. repeat split; try discriminate; try reflexivity.
  - intros rest H. now injection H as <-.
  - intros (_ & _ & H). specialize (H "1" eq_refl). discriminate.
  - intros (H & _). now apply H.
  - intros (_ & H & _). discriminate.
Qed.

Example origin_ignoring_case :
  same_ignoring_case "ORIGIN" "origin" = true
  /\ same_ignoring_case "Origin" "origin" = true
  /\ same_ignoring_case "origins" "origin" = false
  /\ same_ignoring_case "0rigin" "origin" = false
  /\ same_ignoring_case "DeStInAtIoN" "destination" = true.
Proof. repeat split. Qed.

End Wording.

(** ** Trimming

    What it is to trim a string, stated on the white-space characters,
    and that [str.strip] does it. *)

Module Trimming.
Import Frame Analysis Reconstructor Assembler Wording.
Local Open Scope string_scope.

(** The string of the given bytes. *)
Definition bytes (values : list nat) : string :=
  string_of_list_ascii (map ascii_of_nat values).

(** The white-space characters, in UTF-8: U+0009 to U+000D, U+001C to
    U+0020, U+0085, U+00A0, U+1680, U+2000 to U+200A, U+2028, U+2029,
    U+202F, U+205F and U+3000. *)
Definition white_chars : list string :=
  [ bytes [9]; bytes [10]; bytes [11]; bytes [12]; bytes [13];
    bytes [28]; bytes [29]; bytes [30]; bytes [31]; bytes [32];
    bytes [194; 133]; bytes [194; 160];
    bytes [225; 154; 128];
    bytes [226; 128; 128]; bytes [226; 128; 129]; bytes [226; 128; 130];
    bytes [226; 128; 131]; bytes [226; 128; 132]; bytes [226; 128; 133];
    bytes [226; 128; 134]; bytes [226; 128; 135]; bytes [226; 128; 136];
    bytes [226; 128; 137]; bytes [226; 128; 138];
    bytes [226; 128; 168]; bytes [226; 128; 169]; bytes [226; 128; 175];
    bytes [226; 129; 159];
    bytes [227; 128; 128] ]%list.

(** A string made of white-space characters only. *)
Inductive white_space : string -> Prop :=
| white_nil : white_space ""
| white_cons (w s : string) :
    In w white_chars -> white_space s -> white_space (w ++ s).

(** [t] is [s] trimmed: [s] is [t] between two runs of white space, and
    [t] neither starts nor ends with a white-space character. *)
Definition trimmed (s t : string) : Prop :=
  (exists pre post, s = pre ++ t ++ post /\ white_space pre /\ white_space post)
  /\ (forall w rest, In w white_chars -> t <> w ++ rest)
  /\ (forall w rest, In w white_chars -> t <> rest ++ w).

(** *** [str.strip] trims *)

Lemma white_by_mem (w : string) : mem w white_chars = true -> In w white_chars.
Proof. apply mem_iff. Qed.

Lemma ascii_of_byte (c : ascii) (n : nat) :
  Text.byte c = n -> c = ascii_of_nat n.
Proof. intros <-. unfold Text.byte. symmetry. apply ascii_nat_embedding. Qed.

Lemma is_space_white (c : ascii) :
  Text.is_space c = true -> In (String c "") white_chars.
Proof.
  assert (H : forallb (fun c => implb (Text.is_space c)
                                      (mem (String c "") white_chars))
                      all_ascii = true)
    by (vm_compute; reflexivity).
  rewrite forallb_forall in H. specialize (H c (in_all_ascii c)).
  intros E. rewrite E in H. now apply white_by_mem.
Qed.

Lemma is_space2_white (c1 c2 : ascii) :
  Text.is_space2 c1 c2 = true -> In (String c1 (String c2 "")) white_chars.
Proof.
  unfold Text.is_space2. intros H.
  apply andb_true_iff in H. destruct H as [H1 H2].
  apply Nat.eqb_eq, ascii_of_byte in H1. subst c1.
  apply orb_true_iff in H2.
  destruct H2 as [H2|H2]; apply Nat.eqb_eq, ascii_of_byte in H2; subst c2;
    apply white_by_mem; vm_compute; reflexivity.
Qed.

Lemma is_space3_white (c1 c2 c3 : ascii) :
  Text.is_space3 c1 c2 c3 = true ->
  In (String c1 (String c2 (String c3 ""))) white_chars.
Proof.
  assert (H : forall a b,
             forallb (fun c => implb (Text.is_space3 a b c)
                                 (mem (String a (String b (String c "")))
                                      white_chars))
                     all_ascii = true ->
             Text.is_space3 a b c3 = true ->
             In (String a (String b (String c3 ""))) white_chars).
  { intros a b Hall E. rewrite forallb_forall in Hall.
    specialize (Hall c3 (in_all_ascii c3)). rewrite E in Hall.
    now apply white_by_mem. }
  intros E. pose proof E as E'. unfold Text.is_space3 in E'.
  repeat (apply orb_true_iff in E'; destruct E' as [E'|E']);
    repeat (apply andb_true_iff in E'; destruct E' as [E' ?]);
    repeat match goal with
           | X : (Text.byte ?c =? _)%nat = true |- _ =>
               apply Nat.eqb_eq, ascii_of_byte in X
           end;
    subst c1 c2;
    (apply H; [vm_compute; reflexivity | exact E]).
Qed.

Lemma white_chars_space : forallb Text.all_space white_chars = true.
Proof. vm_compute. reflexivity. Qed.

Lemma white_chars_nonempty : forallb (fun w => negb (w =? "")) white_chars = true.
Proof. vm_compute. reflexivity. Qed.

Lemma white_char_all_space (w : string) :
  In w white_chars -> Text.all_space w = true.
Proof.
  intros H. pose proof white_chars_space as Hall.
  rewrite forallb_forall in Hall. now apply Hall.
Qed.

Lemma white_char_nonempty (w : string) : In w white_chars -> w <> "".
Proof.
  intros H. pose proof white_chars_nonempty as Hall.
  rewrite forallb_forall in Hall. specialize (Hall w H).
  intros ->. discriminate.
Qed.

(** Induction on a string along the way [lstrip] and [all_space] read
    it: one, two or three bytes at a time. *)
Lemma string_parse_ind (P : string -> Prop) :
  P "" ->
  (forall c1 r1, (forall s, String.length s <= String.length r1 -> P s) ->
                 P (String c1 r1)) ->
  forall s, P s.
Proof.
  intros Hnil Hstep s.
  assert (H : forall n s, String.length s <= n -> P s).
  { induction n as [|n IH]; intros [|c r] Hlen; cbn in Hlen;
      try exact Hnil; [lia|].
    apply Hstep. intros s' Hs'. apply IH. lia. }
  exact (H (String.length s) s (le_n _)).
Qed.

Lemma lstrip_split (s : string) :
  exists pre, s = pre ++ Text.lstrip s /\ white_space pre.
Proof.
  induction s as [|c1 r1 IH] using string_parse_ind.
  - exists "". split; [reflexivity | constructor].
  - cbn [Text.lstrip]. destruct (Text.is_space c1) eqn:E1.
    { destruct (IH r1 (le_n _)) as (pre & Hpre & Hw).
      exists (String c1 "" ++ pre). split.
      - cbn. now rewrite <- Hpre.
      - apply white_cons; [now apply is_space_white | exact Hw]. }
    destruct r1 as [|c2 r2]; [exists ""; split; [reflexivity | constructor]|].
    destruct (Text.is_space2 c1 c2) eqn:E2.
    { destruct (IH r2) as (pre & Hpre & Hw); [cbn; lia|].
      exists (String c1 (String c2 "") ++ pre). split.
      - cbn. now rewrite <- Hpre.
      - apply white_cons; [now apply is_space2_white | exact Hw]. }
    destruct r2 as [|c3 r3]; [exists ""; split; [reflexivity | constructor]|].
    destruct (Text.is_space3 c1 c2 c3) eqn:E3.
    { destruct (IH r3) as (pre & Hpre & Hw); [cbn; lia|].
      exists (String c1 (String c2 (String c3 "")) ++ pre). split.
      - cbn. now rewrite <- Hpre.
      - apply white_cons; [now apply is_space3_white | exact Hw]. }
    exists "". split; [reflexivity | constructor].
Qed.

Lemma lstrip_idempotent (s : string) :
  Text.lstrip (Text.lstrip s) = Text.lstrip s.
Proof.
  induction s as [|c1 r1 IH] using string_parse_ind; [reflexivity|].
  cbn [Text.lstrip]. destruct (Text.is_space c1) eqn:E1; [now apply IH|].
  destruct r1 as [|c2 r2]; [cbn; now rewrite E1|].
  destruct (Text.is_space2 c1 c2) eqn:E2; [apply IH; cbn; lia|].
  destruct r2 as [|c3 r3]; [cbn; now rewrite E1, E2|].
  destruct (Text.is_space3 c1 c2 c3) eqn:E3; [apply IH; cbn; lia|].
  cbn. now rewrite E1, E2, E3.
Qed.

Lemma length_append (a b : string) :
  String.length (a ++ b) = String.length a + String.length b.
Proof. induction a as [|c a IH]; cbn; [reflexivity | now rewrite IH]. Qed.

Lemma lstrip_length (s : string) :
  String.length (Text.lstrip s) <= String.length s.
Proof.
  destruct (lstrip_split s) as (pre & Hpre & _).
  rewrite Hpre at 2. rewrite length_append. lia.
Qed.

Lemma lstrip_white_char (w rest : string) :
  In w white_chars -> Text.lstrip (w ++ rest) = Text.lstrip rest.
Proof.
  intros H. cbn in H.
  repeat (destruct H as [<-|H]; [reflexivity|]). destruct H.
Qed.

Lemma lstrip_no_leading (s w rest : string) :
  In w white_chars -> Text.lstrip s <> w ++ rest.
Proof.
  intros Hw E.
  pose proof (lstrip_idempotent s) as Hi.
  rewrite E, (lstrip_white_char w rest Hw) in Hi.
  pose proof (lstrip_length rest) as Hlen.
  rewrite Hi, length_append in Hlen.
  pose proof (white_char_nonempty w Hw) as Hne.
  destruct w; [contradiction | cbn in Hlen; lia].
Qed.

Lemma all_space_app (a b : string) :
  Text.all_space a = true -> Text.all_space (a ++ b) = Text.all_space b.
Proof.
  induction a as [|c1 r1 IH] using string_parse_ind; [reflexivity|].
  cbn [Text.all_space append].
  destruct (Text.is_space c1) eqn:E1; [now apply IH|].
  destruct r1 as [|c2 r2]; [discriminate|]. cbn [append].
  destruct (Text.is_space2 c1 c2) eqn:E2; [apply IH; cbn; lia|].
  destruct r2 as [|c3 r3]; [discriminate|]. cbn [append].
  destruct (Text.is_space3 c1 c2 c3) eqn:E3; [|discriminate].
  cbn [andb]. apply IH. cbn. lia.
Qed.

Lemma all_space_white (s : string) : Text.all_space s = true -> white_space s.
Proof.
  induction s as [|c1 r1 IH] using string_parse_ind; [constructor|].
  cbn [Text.all_space]. destruct (Text.is_space c1) eqn:E1.
  { intros H. apply (white_cons (String c1 "") r1);
      [now apply is_space_white | now apply IH]. }
  destruct r1 as [|c2 r2]; [discriminate|].
  destruct (Text.is_space2 c1 c2) eqn:E2.
  { intros H. apply (white_cons (String c1 (String c2 "")) r2);
      [now apply is_space2_white | apply IH; [cbn; lia | exact H]]. }
  destruct r2 as [|c3 r3]; [discriminate|].
  destruct (Text.is_space3 c1 c2 c3) eqn:E3; [|discriminate].
  cbn [andb]. intros H.
  apply (white_cons (String c1 (String c2 (String c3 ""))) r3);
    [now apply is_space3_white | apply IH; [cbn; lia | exact H]].
Qed.

Lemma rstrip_split (s : string) :
  exists post, s = Text.rstrip s ++ post /\ Text.all_space post = true.
Proof.
  induction s as [|c rest IH]; [exists ""; split; reflexivity|].
  cbn [Text.rstrip]. destruct (Text.all_space (String c rest)) eqn:E.
  - exists (String c rest). split; [reflexivity | exact E].
  - destruct IH as (post & Hpost & Hw). exists post.
    split; [cbn; now rewrite <- Hpost | exact Hw].
Qed.

Lemma rstrip_not_space (s : string) :
  Text.all_space s = false -> Text.all_space (Text.rstrip s) = false.
Proof.
  intros H. destruct (rstrip_split s) as (post & Hpost & Hw).
  destruct (Text.all_space (Text.rstrip s)) eqn:E; [|reflexivity].
  rewrite Hpost, (all_space_app _ post E), Hw in H. discriminate.
Qed.

Lemma rstrip_no_trailing (s x y : string) :
  Text.rstrip s = x ++ y -> y <> "" -> Text.all_space y = false.
Proof.
  revert x. induction s as [|c rest IH]; intros x E Hy.
  - cbn in E. destruct x; [cbn in E; congruence | discriminate].
  - cbn [Text.rstrip] in E.
    destruct (Text.all_space (String c rest)) eqn:Es.
    + destruct x; [cbn in E; congruence | discriminate].
    + destruct x as [|c' x'].
      * cbn in E. subst y.
        pose proof (rstrip_not_space _ Es) as H.
        cbn [Text.rstrip] in H. now rewrite Es in H.
      * cbn in E. injection E as _ E. now apply (IH x').
Qed.

(** [str.strip] trims. *)
Lemma strip_trimmed (s : string) : trimmed s (Text.strip s).
Proof.
  unfold trimmed, Text.strip.
  destruct (lstrip_split s) as (pre & Hpre & Hwpre).
  destruct (rstrip_split (Text.lstrip s)) as (post & Hpost & Hwpost).
  split; [|split].
  - exists pre, post. split; [|split].
    + now rewrite <- Hpost.
    + exact Hwpre.
    + now apply all_space_white.
  - intros w rest Hw E.
    apply (lstrip_no_leading s w (rest ++ post) Hw).
    now rewrite Hpost, E, append_assoc.
  - intros w rest Hw E.
    pose proof (rstrip_no_trailing _ rest w E (white_char_nonempty w Hw)) as H.
    rewrite (white_char_all_space w Hw) in H. discriminate.
Qed.

Example trimmed_header :
  trimmed "  Stop Type " "Stop Type"
  /\ ~ trimmed "  Stop Type " "  Stop Type "
  /\ Text.strip "  Stop Type " = "Stop Type".
Proof.
  split; [exact (strip_trimmed "  Stop Type ")|].
  split; [|reflexivity].
  intros (_ & H & _). apply (H " " " Stop Type "); [|reflexivity].
  apply white_by_mem. vm_compute. reflexivity.
Qed.

End Trimming.

(** ** The sheet as it is read

    [read_excel] gives a header cell that holds a number or a date as a
    label that is no string, and a blank cell as a null.  The header
    labels and the shipment id cells are modelled with these cases; the
    other cells are as in [Row].  What is said of the loop holds for a
    sheet whose normalised column names are pairwise distinct. *)

Module Intake.
Import Frame FrameFacts Analysis Classifier Reconstructor Assembler.
Import Sorters Columns Groups Records Report Wording Trimming.
Local Open Scope list_scope.

(** A header cell: text, or a value that is not text. *)
Inductive Label : Type :=
| TextCell (s : string)
| NumberCell (n : Z).

(** What [col.strip()] raises on a label that is no string. *)
Inductive header_exn : Type :=
| AttributeError.

(** [[col.strip().lower() for col in df.columns]] *)
Fixpoint normalize_labels (labels : list Label) : header_exn + list string :=
  match labels with
  | [] => inr []
  | TextCell s :: rest =>
      match normalize_labels rest with
      | inr cols => inr (Text.lower (Text.strip s) :: cols)
      | inl e => inl e
      end
  | NumberCell _ :: _ => inl AttributeError
  end.

(** A data row of the sheet: its shipment id cell may be blank. *)
Record Entry : Type := mkEntry {
  entry_id : option string;
  entry_type : string;
  entry_name : string;
  entry_country : string;
  entry_arrival : option Z;
  entry_departure : option Z;
  entry_carrier : string
}.

(** The row of an entry that has a shipment id. *)
Definition row_of (e : Entry) : option Row :=
  match entry_id e with
  | Some k =>
      Some (mkRow k (entry_type e) (entry_name e) (entry_country e)
                  (entry_arrival e) (entry_departure e) (entry_carrier e))
  | None => None
  end.

(** The rows [df.groupby("shipment id")] groups: with the default
    [dropna=True] a row whose key is null belongs to no group. *)
Definition keyed (entries : list Entry) : list Row :=
  dropna (map row_of entries).

(** How the run of the page ends: with the exception of the header
    normalisation, or as [run] does on the normalised headers. *)
Inductive SheetOutcome : Type :=
| HeaderRaised (e : header_exn)
| Ran (outcome : Outcome).

Definition run_sheet (A : ArgSort) (labels : list Label) (entries : list Entry)
  : SheetOutcome :=
  match normalize_labels labels with
  | inl e => HeaderRaised e
  | inr cols =>
      Ran (match missing_cols cols with
           | (_ :: _) as missing => StError (missing_message missing)
           | [] =>
               match results A (keyed entries) with
               | Return records => Results records
               | Raise e => Uncaught e
               end
           end)
  end.

(** *** Terms of the statements *)

(** The seven required field names. *)
Definition seven_names : list string :=
  [ "shipment id"; "stop type"; "stop name"; "stop country";
    "stop actual arrival time"; "stop actual departure time";
    "current carrier" ].

(** The required names that are not among the given names, in the order
    of the list of required names. *)
Definition absent_names (cols : list string) : list string :=
  filter (fun c => if in_dec string_dec c cols then false else true)
         seven_names.


Definition has_id (e : Entry) : bool :=
  match entry_id e with
  | Some _ => true
  | None => false
  end.

Definition id_is (k : string) (e : Entry) : bool :=
  match entry_id e with
  | Some k' => (k' =? k)%string
  | None => false
  end.

(** *** The column check *)

Lemma normalize_labels_text (headers : list string) :
  normalize_labels (map TextCell headers) = inr (normalize headers).
Proof.
  induction headers as [|h headers IH]; [reflexivity|].
  cbn [map normalize_labels]. now rewrite IH.
Qed.

Lemma run_sheet_text (A : ArgSort) (headers : list string) (entries : list Entry) :
  run_sheet A (map TextCell headers) entries
  = Ran (run A {| columns := headers; rows := keyed entries |}).
Proof. unfold run_sheet, run. now rewrite normalize_labels_text. Qed.

Lemma missing_cols_absent (cols : list string) :
  missing_cols cols = absent_names cols.
Proof.
  unfold missing_cols, absent_names.
  change required_cols with seven_names. apply filter_ext. intros c.
  destruct (in_dec string_dec c cols) as [H|H].
  - apply mem_iff in H. now rewrite H.
  - destruct (mem c cols) eqn:E; [|reflexivity].
    apply mem_iff in E. contradiction.
Qed.



Lemma missing_message_wording (missing : list string) :
  missing_message missing
  = ("❌ Missing columns in uploaded file: " ++ joined ", " missing)%string.
Proof. unfold missing_message. now rewrite join_joined. Qed.


Lemma run_sheet_missing (A : ArgSort) (headers : list string) (entries : list Entry) :
  absent_names (normalize headers) <> [] ->
  run_sheet A (map TextCell headers) entries
  = Ran (StError ("❌ Missing columns in uploaded file: "
                  ++ joined ", " (absent_names (normalize headers)))%string).
Proof.
  intros H. unfold run_sheet.
  rewrite normalize_labels_text, missing_cols_absent.
  destruct (absent_names (normalize headers)) as [|c rest] eqn:E;
    [congruence|].
  now rewrite missing_message_wording.
Qed.




(** X1.  The column check reads the text headers as a set of normalised
    names: two header rows with the same normalised names, in any order
    and with any repetition, miss the same columns, and when a column is
    missing the run ends with the same message whatever the rows. *)
Theorem column_check_headers_as_set
  (A A' : ArgSort) (headers headers' : list string)
  (entries entries' : list Entry) :
  (forall c, In c (normalize headers) <-> In c (normalize headers')) ->
  missing_cols (normalize headers) = missing_cols (normalize headers')
  /\ (missing_cols (normalize headers) <> [] ->
      run_sheet A (map TextCell headers) entries
      = run_sheet A' (map TextCell headers') entries').
Proof.
  intros H. pose proof (missing_cols_ext _ _ H) as E.
  split; [exact E|]. intros Hne.
  rewrite !missing_cols_absent in E. rewrite missing_cols_absent in Hne.
  rewrite (run_sheet_missing A headers entries Hne).
  rewrite (run_sheet_missing A' headers' entries') by now rewrite <- E.
  now rewrite E.
Qed.

(** *** The groups of a sheet *)

Lemma keyed_cons (e : Entry) (entries : list Entry) :
  keyed (e :: entries)
  = match row_of e with
    | Some r => r :: keyed entries
    | None => keyed entries
    end.
Proof. unfold keyed. cbn. now destruct (row_of e). Qed.

Lemma row_of_id (e : Entry) (r : Row) :
  row_of e = Some r -> entry_id e = Some (shipment_id r).
Proof.
  unfold row_of. destruct (entry_id e); [|discriminate].
  now intros [= <-].
Qed.

Lemma row_of_none (e : Entry) : row_of e = None <-> entry_id e = None.
Proof. unfold row_of. now destruct (entry_id e). Qed.

Lemma keyed_In (entries : list Entry) (r : Row) :
  In r (keyed entries) <-> exists e, In e entries /\ row_of e = Some r.
Proof.
  induction entries as [|e entries IH]; [cbn; firstorder|].
  rewrite keyed_cons. destruct (row_of e) as [r'|] eqn:E; cbn [In].
  - rewrite IH. split.
    + intros [<-|(e' & H1 & H2)]; [exists e | exists e']; auto.
    + intros (e' & [<-|H1] & H2); [left; congruence | right; eauto].
  - rewrite IH. split.
    + intros (e' & H1 & H2). eauto.
    + intros (e' & [<-|H1] & H2); [congruence | eauto].
Qed.

Lemma keyed_length (entries : list Entry) :
  List.length (keyed entries) = List.length (filter has_id entries).
Proof.
  induction entries as [|e entries IH]; [reflexivity|].
  rewrite keyed_cons. cbn [filter]. unfold row_of, has_id.
  destruct (entry_id e); cbn [List.length]; now rewrite IH.
Qed.

Lemma keyed_nil_iff (entries : list Entry) :
  keyed entries = [] <-> Forall (fun e => entry_id e = None) entries.
Proof.
  induction entries as [|e entries IH]; [split; constructor|].
  rewrite keyed_cons. unfold row_of. destruct (entry_id e) eqn:E.
  - split; [discriminate|]. intros H. inversion H; subst. congruence.
  - rewrite IH. split; [now constructor|]. intros H. now inversion H.
Qed.

Lemma keyed_ids (entries : list Entry) (k : string) :
  In k (map shipment_id (keyed entries))
  <-> exists e, In e entries /\ entry_id e = Some k.
Proof.
  rewrite in_map_iff. split.
  - intros (r & <- & Hr). apply keyed_In in Hr.
    destruct Hr as (e & He & Hrow). exists e. split; [exact He|].
    now apply row_of_id.
  - intros (e & He & Hid).
    destruct (row_of e) as [r|] eqn:E;
      [|apply row_of_none in E; congruence].
    exists r. split.
    + apply row_of_id in E. congruence.
    + apply keyed_In. eauto.
Qed.

(** The rows of shipment [k] among the keyed rows are the rows of the
    entries whose id is [k]. *)
Lemma rows_of_keyed (k : string) (entries : list Entry) :
  rows_of k (keyed entries) = keyed (filter (id_is k) entries).
Proof.
  induction entries as [|e entries IH]; [reflexivity|].
  rewrite keyed_cons. cbn [filter]. unfold id_is at 1, row_of at 1.
  destruct (entry_id e) as [k'|] eqn:E.
  - unfold rows_of. cbn [filter shipment_id]. fold (rows_of k (keyed entries)).
    destruct (k' =? k)%string.
    + rewrite keyed_cons. unfold row_of. rewrite E. now rewrite IH.
    + exact IH.
  - exact IH.
Qed.

Lemma id_is_has_id (k : string) (entries : list Entry) :
  filter has_id (filter (id_is k) entries) = filter (id_is k) entries.
Proof.
  apply filter_all, Forall_forall. intros e He. apply filter_In in He.
  destruct He as [_ He]. unfold id_is, has_id in *.
  now destruct (entry_id e).
Qed.

(** X3.  [groupby] splits the rows that have a shipment id, and only
    those: the group keys are the ids that occur in the sheet, each
    once, in strictly ascending order; the group of a key holds the rows
    of the entries with that id, in sheet order, and is not empty; a row
    is in some group exactly when it is the row of an entry with an id;
    together the groups hold each such row once, so as many rows as the
    sheet has entries with an id. *)
Theorem groupby_partition_by_id (entries : list Entry) :
  StronglySorted key_lt (map fst (groupby (keyed entries)))
  /\ NoDup (map fst (groupby (keyed entries)))
  /\ (forall k,
        In k (map fst (groupby (keyed entries)))
        <-> exists e, In e entries /\ entry_id e = Some k)
  /\ Forall (fun kg =>
               snd kg = keyed (filter (id_is (fst kg)) entries)
               /\ snd kg <> [])
            (groupby (keyed entries))
  /\ (forall r,
        In r (List.concat (map snd (groupby (keyed entries))))
        <-> exists e, In e entries /\ row_of e = Some r)
  /\ Permutation (List.concat (map snd (groupby (keyed entries))))
                 (keyed entries)
  /\ List.length (List.concat (map snd (groupby (keyed entries))))
     = List.length (filter has_id entries).
Proof.
  destruct (groupby_partition (keyed entries))
    as (Hs & Hnd & Hkeys & Hgroups & Hperm).
  split; [exact Hs|]. split; [exact Hnd|].
  split; [|split; [|split; [|split]]].
  - intros k. rewrite Hkeys, <- keyed_ids, in_map_iff.
    split; intros (r & H1 & H2); exists r; tauto.
  - eapply Forall_impl; [|exact Hgroups].
    intros kg [Heq Hne]. split; [|exact Hne].
    now rewrite Heq, rows_of_keyed.
  - intros r. rewrite <- keyed_In.
    split; apply Permutation_in; [|symmetry]; exact Hperm.
  - exact Hperm.
  - now rewrite (Permutation_length Hperm), keyed_length.
Qed.

(** X4.  The loop returns one record per shipment id that occurs in the
    sheet, in strictly ascending order of the id; the stop count of a
    record is the number of entries with its id, and the counts add up
    to the number of entries that have an id (entries with a blank id
    are counted in no record). *)
Theorem results_per_shipment_id (A : ArgSort) (entries : list Entry) :
  exists records,
    results A (keyed entries) = Return records
    /\ StronglySorted key_lt (map Shipment_ID records)
    /\ (forall k,
          In k (map Shipment_ID records)
          <-> exists e, In e entries /\ entry_id e = Some k)
    /\ Forall (fun record =>
                 Number_of_Stops record
                 = List.length (filter (id_is (Shipment_ID record)) entries))
              records
    /\ list_sum (map Number_of_Stops records)
       = List.length (filter has_id entries).
Proof.
  destruct (results_per_shipment A (keyed entries))
    as (records & E & Hids & Hn & Hsum & Hs).
  exists records. split; [exact E|]. split; [exact Hs|].
  split; [|split].
  - intros k. now rewrite Hids, group_keys_In, keyed_ids.
  - eapply Forall_impl; [|exact Hn]. cbn. intros record ->.
    now rewrite rows_of_keyed, keyed_length, id_is_has_id.
  - now rewrite Hsum, keyed_length.
Qed.

(** X12.  The text conversion after the loop raises [KeyError] on
    "Intended Order" exactly when no entry of the sheet has a shipment
    id (a sheet without rows among them): the loop then returns no
    record, and the frame built from no record has no column.  When
    some entry has an id, the frame holds the nine result columns and
    the records of the loop, unchanged. *)
Theorem no_shipment_id_raises (A : ArgSort) (entries : list Entry) :
  exists records,
    results A (keyed entries) = Return records
    /\ (records = [] <-> Forall (fun e => entry_id e = None) entries)
    /\ (result_df records = inl (KeyError "Intended Order")
        <-> Forall (fun e => entry_id e = None) entries)
    /\ (Exists (fun e => entry_id e <> None) entries ->
        records <> []
        /\ result_df records
           = inr {| frame_columns :=
                      [ "Shipment ID"; "Origin Location"; "Number of Stops";
                        "Carrier"; "Milestone Status"; "Out of Order";
                        "Intended Order"; "Exact Order"; "Missed Stops" ];
                    frame_records := records |}).
Proof.
  destruct (results_per_shipment A (keyed entries)) as (records & E & _).
  exists records. split; [exact E|].
  pose proof (results_nil_iff A (keyed entries) records E) as Hnil.
  rewrite keyed_nil_iff in Hnil.
  split; [exact Hnil|].
  destruct records as [|record records].
  - split; [rewrite result_df_empty; tauto|].
    intros Hex. apply Exists_exists in Hex. destruct Hex as (e & He & Hid).
    assert (Hall : Forall (fun e => entry_id e = None) entries)
      by now apply Hnil.
    rewrite Forall_forall in Hall. now apply Hall in He.
  - rewrite result_df_records. split.
    + split; [discriminate|]. intros H. apply Hnil in H. discriminate.
    + intros _. split; [discriminate | reflexivity].
Qed.

(** A sheet with every required column and no data row, and one whose
    only row has a blank shipment id: both pass the column check, the
    loop returns no record, and the text conversion raises. *)
Example blank_sheets_raise :
  run_sheet insertion (map TextCell Scenarios.headers) []
  = Ran (Results [])
  /\ run_sheet insertion (map TextCell Scenarios.headers)
       [mkEntry None "Origin" "A" "NL" (Some 1%Z) (Some 2%Z) "Carrier"]
     = Ran (Results [])
  /\ result_df [] = inl (KeyError "Intended Order").
Proof. repeat split. Qed.

Lemma column_check_headers_as_set_witness :
  (forall c,
     In c (normalize ["Shipment ID"; "stop type"])
     <-> In c (normalize ["STOP TYPE "; " shipment id"; "Shipment Id"]))
  /\ missing_cols (normalize ["Shipment ID"; "stop type"]) <> []
  /\ run_sheet insertion (map TextCell ["Shipment ID"; "stop type"]) []
     = run_sheet merge
         (map TextCell ["STOP TYPE "; " shipment id"; "Shipment Id"])
         [mkEntry None "Origin" "A" "NL" None None "Carrier"].
Proof.
  assert (H1 : incl (normalize ["Shipment ID"; "stop type"])
                    (normalize ["STOP TYPE "; " shipment id"; "Shipment Id"]))
    by (apply incl_by_mem; vm_compute; reflexivity).
  assert (H2 : incl (normalize ["STOP TYPE "; " shipment id"; "Shipment Id"])
                    (normalize ["Shipment ID"; "stop type"]))
    by (apply incl_by_mem; vm_compute; reflexivity).
  assert (H : forall c,
             In c (normalize ["Shipment ID"; "stop type"])
             <-> In c (normalize ["STOP TYPE "; " shipment id"; "Shipment Id"]))
    by (intros c; split; [apply H1 | apply H2]).
  assert (Hne : missing_cols (normalize ["Shipment ID"; "stop type"]) <> [])
    by (vm_compute; discriminate).
  split; [exact H|]. split; [exact Hne|].
  exact (proj2 (column_check_headers_as_set insertion merge _ _ _ _ H) Hne).
Defined.

End Intake.
